(** * aws_status_slack.py: the feed-watch loop

    A shallow embedding of [src/aws_status_slack.py] and the properties of
    its polling loop.  The script is a single sequential Python program that
    talks to three collaborators: the feed parser ([feedparser.parse]), the
    HTTP client ([requests.post]) and the clock ([time.sleep]).  The program
    is modelled in a state-and-exception monad over a record that holds the
    two objects the script mutates ([feeds], [last_saved_dates]) and the
    observable history of the run (the calls made to the collaborators).

    What is taken from the collaborators:
    - [feedparser.parse] returns a parsed feed, or raises when it rejects
      the URL it is given; a parsed feed carries a list of [entries], each
      with a [published_parsed] that is a valid [time.struct_time], as the
      docstrings of the script say, and it carries a [status] only when an
      HTTP response was received: reading [data.status] of a feed whose
      host could not be reached raises [AttributeError];
    - [requests.post] returns a response, whatever its status code, or
      raises when the endpoint cannot be reached; the script catches no
      exception anywhere;
    - [time.sleep] and the records that pass the threshold of the root
      logger are kept in the history, so that pauses and diagnostics can be
      read off a run.

    [check_loop] never returns: it is modelled by its first [n] rounds, for
    every [n]. *)

From Stdlib Require Import ZArith Lia Ascii.
From stdpp Require Import base option list gmap strings.

Local Open Scope Z_scope.

(** ** Time values *)

(** [time.struct_time]: the nine fields of the tuple, in tuple order. *)
Record struct_time := mk_struct_time {
  tm_year : Z; tm_mon : Z; tm_mday : Z;
  tm_hour : Z; tm_min : Z; tm_sec : Z;
  tm_wday : Z; tm_yday : Z; tm_isdst : Z
}.

(** A naive [datetime.datetime].  Python orders two naive datetimes by
    their fields, most significant first. *)
Record datetime := mk_datetime {
  year : Z; month : Z; day : Z;
  hour : Z; minute : Z; second : Z; microsecond : Z
}.

(** [datetime.datetime( *t[:6])]: the first six fields of the tuple, the
    microsecond defaulting to 0. *)
Definition datetime_of_tuple6 (t : struct_time) : datetime :=
  mk_datetime (tm_year t) (tm_mon t) (tm_mday t)
              (tm_hour t) (tm_min t) (tm_sec t) 0.

Definition lex (c1 c2 : comparison) : comparison :=
  match c1 with Eq => c2 | _ => c1 end.

Definition datetime_cmp (a b : datetime) : comparison :=
  lex (year a ?= year b)
  (lex (month a ?= month b)
  (lex (day a ?= day b)
  (lex (hour a ?= hour b)
  (lex (minute a ?= minute b)
  (lex (second a ?= second b)
       (microsecond a ?= microsecond b)))))).

(** [a > b] on datetimes, as a boolean. *)
Definition datetime_gt (a b : datetime) : bool :=
  match datetime_cmp a b with Gt => true | _ => false end.

(** The order as propositions: [dt_lt a b] reads "a precedes b". *)
Definition dt_lt (a b : datetime) : Prop := datetime_cmp a b = Lt.
Definition dt_le (a b : datetime) : Prop := a = b ∨ dt_lt a b.

(** ** Strings *)

(** [prefix in s] at position 0. *)
Fixpoint starts_with (p s : string) : bool :=
  match p, s with
  | EmptyString, _ => true
  | String a p', String b s' => if decide (a = b) then starts_with p' s' else false
  | String _ _, EmptyString => false
  end.

(** Python's [needle in hay] on [str]: substring search. *)
Fixpoint str_in (needle hay : string) : bool :=
  starts_with needle hay ||
  match hay with
  | EmptyString => false
  | String _ hay' => str_in needle hay'
  end.

(** The relation [str_in] decides. *)
Definition contains (hay needle : string) : Prop :=
  ∃ pre post, hay = pre +:+ needle +:+ post.

(** ** The parsed feed *)

(** An item of [data.entries]; only the attributes the script reads. *)
Record Entry := mk_Entry {
  title : string;
  link : string;
  summary : string;
  published_parsed : struct_time
}.

(** [feedparser.FeedParserDict], with the two attributes the script reads:
    the HTTP status of the response and the entries, newest first.  The
    attribute [status] exists only when an HTTP response was received; a
    feed whose host could not be reached is parsed into a result without
    it. *)
Record FeedParserDict := mk_FeedParserDict {
  status : option Z;
  entries : list Entry
}.

(** What [feedparser.parse] does: it returns a parsed feed, or raises
    [http.client.InvalidURL] when it rejects the URL. *)
Inductive parse_outcome :=
  | Parsed (data : FeedParserDict)
  | Refused.

(** ** What the script sends and logs *)

(** One element of the ['attachments'] list of the Slack payload. *)
Record Attachment := mk_Attachment {
  att_color : string;
  att_title : string;
  att_title_link : string;
  att_text : string
}.

(** The [payload] dictionary of [send_to_slack], before [json.dumps]. *)
Record Payload := mk_Payload {
  username : string;
  icon_url : string;
  channel : string;
  attachments : list Attachment
}.

(** Logging levels with their numeric values. *)
Inductive level := DEBUG | INFO | WARNING | ERROR.

Definition level_no (l : level) : Z :=
  match l with DEBUG => 10 | INFO => 20 | WARNING => 30 | ERROR => 40 end.

(** Arguments of a log record: the values interpolated into the format. *)
Inductive log_arg :=
  | AStr (s : string)
  | ADate (d : datetime)
  | AData (d : FeedParserDict).

(** The calls the script makes to its collaborators. *)
Inductive event :=
  | EvFetch (url : string)
  | EvPost (url : string) (data : Payload)
  | EvSleep (secs : Z)
  | EvLog (lvl : level) (fmt : string) (args : list log_arg).

(** What [requests.post] does: it returns a response carrying a status
    code, or raises when the endpoint cannot be reached. *)
Inductive post_outcome :=
  | Response (status_code : Z)
  | Unreachable.

(** ** Exceptions and the program monad *)

Inductive exn :=
  | SystemExit (code : Z)
  | IndexError
  | KeyError
  | ValueError
  | AttributeError
  | InvalidURL
  | ConnectionError.

Inductive result (A : Type) :=
  | Ret (a : A)
  | Raise (e : exn).
Arguments Ret {A} a.
Arguments Raise {A} e.

(** The objects [check_loop] mutates, and the calls made so far, the most
    recent first. *)
Record state := mk_state {
  feeds : list string;
  last_saved_dates : gmap string datetime;
  history : list event
}.

Definition M (A : Type) : Type := state → result A * state.

Definition ret {A} (a : A) : M A := λ s, (Ret a, s).

Definition raise {A} (e : exn) : M A := λ s, (Raise e, s).

Definition bind {A B} (m : M A) (k : A → M B) : M B :=
  λ s, match m s with
       | (Ret a, s') => k a s'
       | (Raise e, s') => (Raise e, s')
       end.

Declare Scope prog_scope.
Delimit Scope prog_scope with prog.
Notation "x <- m ;; k" := (bind m (λ x, k))
  (at level 100, m at next level, right associativity) : prog_scope.
Notation "m ;; k" := (bind m (λ _, k))
  (at level 100, right associativity) : prog_scope.
Local Open Scope prog_scope.

(** The status with which the interpreter leaves: the code of an uncaught
    [SystemExit], 1 for any other uncaught exception; [None] while the
    program is still running. *)
Definition exit_status {A} (r : result A) : option Z :=
  match r with
  | Ret _ => None
  | Raise (SystemExit c) => Some c
  | Raise _ => Some 1
  end.

(** *** Primitive operations on the state *)

Definition emit (e : event) : M unit :=
  λ s, (Ret tt, mk_state (feeds s) (last_saved_dates s) (e :: history s)).

Definition get_feeds : M (list string) := λ s, (Ret (feeds s), s).

(** [l.remove(x)]: drops the first element equal to [x]; [ValueError]
    when there is none. *)
Fixpoint remove_first (x : string) (l : list string) : option (list string) :=
  match l with
  | [] => None
  | y :: l' => if decide (y = x) then Some l'
               else match remove_first x l' with
                    | Some r => Some (y :: r)
                    | None => None
                    end
  end.

Definition feeds_remove (x : string) : M unit :=
  λ s, match remove_first x (feeds s) with
       | Some l => (Ret tt, mk_state l (last_saved_dates s) (history s))
       | None => (Raise ValueError, s)
       end.

(** [last_saved_dates = {}] *)
Definition dates_init : M unit :=
  λ s, (Ret tt, mk_state (feeds s) ∅ (history s)).

(** [last_saved_dates[feed]]: [KeyError] on a missing key. *)
Definition dates_get (feed : string) : M datetime :=
  λ s, match last_saved_dates s !! feed with
       | Some d => (Ret d, s)
       | None => (Raise KeyError, s)
       end.

(** [last_saved_dates[feed] = d] *)
Definition dates_set (feed : string) (d : datetime) : M unit :=
  λ s, (Ret tt, mk_state (feeds s) (<[feed := d]> (last_saved_dates s)) (history s)).

(** [l[0]] *)
Definition index0 {A} (l : list A) : M A :=
  match l with
  | [] => raise IndexError
  | x :: _ => ret x
  end.

(** [for x in l: body(x)] over the elements of [l]. *)
Fixpoint for_each {A} (l : list A) (body : A → M unit) : M unit :=
  match l with
  | [] => ret tt
  | x :: l' => body x ;; for_each l' body
  end.

(** [for x in feeds: body(x)] as Python runs it on the live list: the
    iterator keeps an index and stops once the index is past the end of
    the list as it then is.  [fuel] bounds the number of steps. *)
Fixpoint for_live (fuel i : nat) (body : string → M unit) : M unit :=
  match fuel with
  | O => ret tt
  | S fuel' =>
      fs <- get_feeds ;;
      match fs !! i with
      | Some x => body x ;; for_live fuel' (S i) body
      | None => ret tt
      end
  end.

(** The first [n] rounds of [while True: body]. *)
Fixpoint while_true (n : nat) (body : M unit) : M unit :=
  match n with
  | O => ret tt
  | S n' => body ;; while_true n' body
  end.

(** ** The collaborators *)

(** The world outside the script.  What a request returns may depend on
    everything that happened before it, so the servers are functions of the
    history of the run.  [START_TIME] is [datetime.datetime.now()] read when
    the module is loaded. *)
Record environment := mk_environment {
  START_TIME : datetime;
  feed_server : list event → string → parse_outcome;
  slack_server : list event → string → Payload → post_outcome
}.

(** ** Constants *)

Definition AWS_RSS_URL (feed : string) : string :=
  "http://status.aws.amazon.com/rss/" +:+ feed +:+ ".rss".

Global Arguments AWS_RSS_URL : simpl never.

Definition REQUESTS_INTERVAL : Z := 2.
Definition CHECKS_INTERVAL : Z := 60.

(** [logging.basicConfig(level=logging.INFO)]: the threshold of the root
    logger. *)
Definition LOG_LEVEL : level := INFO.

(** The characters that the format strings of the script write with an
    escape: ['\t'] is the horizontal tab, ['\n'] the line feed. *)
Definition TAB : string := String "009"%char "".
Definition LF : string := String "010"%char "".

(** The format strings of lines 106, 116 and 122. *)
Definition FEED_LINE : string :=
  Eval cbv in TAB +:+ "Feed: %s" +:+ TAB +:+ "Last publication: %s".
Definition NO_ENTRIES_LINE : string :=
  Eval cbv in "Feed without entries: %s." +:+ LF +:+ "Data: %s.".
Definition DATES_LINE : string :=
  Eval cbv in "Feed: %s" +:+ LF +:+ "Last saved date: %s" +:+ LF
              +:+ "Last gotten date: %s".

Module Script.
Section WithEnvironment.

Variable env : environment.

(** [feedparser.parse(url)]; no handler surrounds the call. *)
Definition feedparser_parse (url : string) : M FeedParserDict :=
  λ s, let s' := mk_state (feeds s) (last_saved_dates s)
                          (EvFetch url :: history s) in
       match feed_server env (history s) url with
       | Parsed data => (Ret data, s')
       | Refused => (Raise InvalidURL, s')
       end.

(** [requests.post(url, data=...)]; no handler surrounds the call. *)
Definition requests_post (url : string) (data : Payload) : M Z :=
  λ s, let s' := mk_state (feeds s) (last_saved_dates s)
                          (EvPost url data :: history s) in
       match slack_server env (history s) url data with
       | Response c => (Ret c, s')
       | Unreachable => (Raise ConnectionError, s')
       end.

Definition time_sleep (secs : Z) : M unit := emit (EvSleep secs).

(** A record below the threshold of the root logger is discarded. *)
Definition logging_log (lvl : level) (fmt : string) (args : list log_arg) : M unit :=
  if decide (level_no LOG_LEVEL ≤ level_no lvl)
  then emit (EvLog lvl fmt args)
  else ret tt.

Definition sys_exit {A} (code : Z) : M A := raise (SystemExit code).

(** *** The functions of the script *)

Definition fetch (feed : string) : M FeedParserDict :=
  feedparser_parse (AWS_RSS_URL feed).

(** [data.status]: [AttributeError] when the parsed feed has no such
    attribute. *)
Definition get_status (data : FeedParserDict) : M Z :=
  match status data with
  | Some code => ret code
  | None => raise AttributeError
  end.

Definition last_pub_date (data : FeedParserDict) : M datetime :=
  e <- index0 (entries data) ;;
  ret (datetime_of_tuple6 (published_parsed e)).

Definition message_color (item : Entry) : string :=
  if str_in "Service is operating normally:" (title item) then "good"
  else if str_in "Informational message:" (title item) then "warning"
  else "danger".

Definition slack_payload (item : Entry) (slack_channel : string) : Payload :=
  mk_Payload "aws"
    "https://dl.dropboxusercontent.com/u/62469907/aws-icon.png"
    slack_channel
    [ mk_Attachment (message_color item) (title item) (link item) (summary item) ].

Definition send_to_slack (item : Entry) (slack_webhook slack_channel : string) : M unit :=
  _ <- requests_post slack_webhook (slack_payload item slack_channel) ;;
  logging_log INFO "Notification sent to Slack!" [].

(** Body of the first [for] of [check_loop] (lines 78-95). *)
Definition seed_feed (feed : string) : M unit :=
  data <- fetch feed ;;
  code <- get_status data ;;
  if decide (code ≠ 200) then
    logging_log WARNING "Ignoring not existent feed: %s" [AStr (AWS_RSS_URL feed)] ;;
    feeds_remove feed
  else
    (match entries data with
     | _ :: _ => d <- last_pub_date data ;; dates_set feed d
     | [] => dates_set feed (START_TIME env)
     end) ;;
    time_sleep REQUESTS_INTERVAL.

(** Lines 75-95: the copy [feeds[:]] is taken once, before the loop. *)
Definition seed : M unit :=
  dates_init ;;
  copy <- get_feeds ;;
  for_each copy seed_feed.

(** Lines 98-101. *)
Definition abort_if_empty : M unit :=
  fs <- get_feeds ;;
  match fs with
  | [] =>
      logging_log ERROR "No valid feeds left. TIP: Do not specify feeds to watch %s."
                  [AStr (AWS_RSS_URL "all")] ;;
      sys_exit 1
  | _ :: _ => ret tt
  end.

(** Body of the [for] of lines 105-106. *)
Definition announce_feed (feed : string) : M unit :=
  d <- dates_get feed ;;
  logging_log INFO FEED_LINE [AStr (AWS_RSS_URL feed); ADate d].

(** Body of the [for] inside [while True] (lines 111-133). *)
Definition check_feed (slack_webhook slack_channel feed : string) : M unit :=
  data <- fetch feed ;;
  match entries data with
  | [] =>
      logging_log DEBUG NO_ENTRIES_LINE [AStr feed; AData data]
  | _ :: _ =>
      last_pub <- last_pub_date data ;;
      saved <- dates_get feed ;;
      logging_log DEBUG DATES_LINE [AStr feed; ADate saved; ADate last_pub] ;;
      saved <- dates_get feed ;;
      (if datetime_gt last_pub saved then
         item <- index0 (entries data) ;;
         send_to_slack item slack_webhook slack_channel ;;
         dates_set feed last_pub
       else ret tt) ;;
      time_sleep REQUESTS_INTERVAL
  end.

(** One round of [while True] (lines 109-136).  The body of the [for]
    never changes [feeds], so the loop visits the elements the list has
    when the round begins. *)
Definition check_pass (slack_webhook slack_channel : string) : M unit :=
  logging_log DEBUG "Starting a new check." [] ;;
  fs <- get_feeds ;;
  for_each fs (check_feed slack_webhook slack_channel) ;;
  time_sleep CHECKS_INTERVAL.

(** The first [n] rounds of the endless loop of line 108. *)
Definition steady (n : nat) (slack_webhook slack_channel : string) : M unit :=
  while_true n (check_pass slack_webhook slack_channel).

(** [check_loop], cut after [n] rounds of its [while True]; the list
    [feeds] it receives is the [feeds] field of the state it starts in. *)
Definition check_loop (n : nat) (slack_webhook slack_channel : string) : M unit :=
  seed ;;
  abort_if_empty ;;
  logging_log INFO "Entering check loop for following feeds:" [] ;;
  fs <- get_feeds ;;
  for_each fs announce_feed ;;
  steady n slack_webhook slack_channel.

End WithEnvironment.
End Script.

(** The state in which [check_loop(feeds, ...)] is entered. *)
Definition initial_state (feeds_arg : list string) : state :=
  mk_state feeds_arg ∅ [].

Import Script.

(** ** The entry point *)

(** [args.feeds] as [argparse] fills it for the positional argument
    [feeds] ([nargs='*'], [default=['all']]): the names given on the
    command line, or the default list when none is given. *)
Definition parsed_feeds (given : list string) : list string :=
  match given with
  | [] => ["all"]
  | _ :: _ => given
  end.

(** Lines 138-150, for a command line that gives the webhook, the
    channel and the feed names [given], cut after [n] rounds. *)
Definition main (env : environment) (n : nat)
    (slack_webhook slack_channel : string) (given : list string)
    : result unit * state :=
  check_loop env n slack_webhook slack_channel (initial_state (parsed_feeds given)).

(** * The vocabulary of the properties *)

Section Vocabulary.

Variable env : environment.
Variables slack_webhook slack_channel : string.

(** ** Reading a history *)

(** The URLs requested in a history, the most recent first. *)
Fixpoint fetch_log (h : list event) : list string :=
  match h with
  | [] => []
  | EvFetch u :: h' => u :: fetch_log h'
  | _ :: h' => fetch_log h'
  end.

(** The POSTs of a history, the most recent first. *)
Fixpoint post_log (h : list event) : list (string * Payload) :=
  match h with
  | [] => []
  | EvPost u p :: h' => (u, p) :: post_log h'
  | _ :: h' => post_log h'
  end.

(** The records logged at a level, the most recent first. *)
Fixpoint log_records (lvl : level) (h : list event) : list string :=
  match h with
  | [] => []
  | EvLog l fmt _ :: h' =>
      if decide (level_no l = level_no lvl) then fmt :: log_records lvl h'
      else log_records lvl h'
  | _ :: h' => log_records lvl h'
  end.

(** The time a history has spent in [time.sleep], in seconds. *)
Fixpoint slept (h : list event) : Z :=
  match h with
  | [] => 0
  | EvSleep secs :: h' => secs + slept h'
  | _ :: h' => slept h'
  end.

(** How many times [x] occurs in [l]. *)
Fixpoint occurrences (x : string) (l : list string) : nat :=
  match l with
  | [] => O
  | y :: l' => if decide (y = x) then S (occurrences x l') else occurrences x l'
  end.

(** How many requests for [feed] a history holds. *)
Definition requests_for (feed : string) (h : list event) : nat :=
  occurrences (AWS_RSS_URL feed) (fetch_log h).

(** The later state continues the history of the earlier one. *)
Definition history_extends : relation state :=
  λ s s', ∃ later, history s' = later ++ history s.

(** ** Runs and their outcomes *)

(** A program whose every run, normal or not, relates the state it
    starts in to the state it leaves. *)
Definition preserves {A} (R : relation state) (m : M A) : Prop :=
  ∀ s, R s (m s).2.

(** The outcome of a run: [I] after a normal end, [E] after an
    exception. *)
Definition outcome {A} (I : state → Prop) (E : exn → state → Prop)
    (rs : result A * state) : Prop :=
  match rs with
  | (Ret _, s') => I s'
  | (Raise e, s') => E e s'
  end.

(** No exception at all. *)
Definition no_exn (e : exn) (s : state) : Prop := False.

(** ** One visit of a feed *)

(** What a request for [feed] made in state [s] comes back with: the
    snapshot of the feed, unless the parser raises. *)
Definition snapshot (s : state) (feed : string) : parse_outcome :=
  feed_server env (history s) (AWS_RSS_URL feed).

(** The state right after that request. *)
Definition fetched (s : state) (feed : string) : state :=
  mk_state (feeds s) (last_saved_dates s) (EvFetch (AWS_RSS_URL feed) :: history s).

(** The six ways in which one visit of a feed can go. *)
Inductive feed_visit (s : state) (feed : string) : result unit * state → Prop :=
  | visit_refused :
      snapshot s feed = Refused →
      feed_visit s feed (Raise InvalidURL, fetched s feed)
  | visit_empty data :
      snapshot s feed = Parsed data →
      entries data = [] →
      feed_visit s feed (Ret tt, fetched s feed)
  | visit_unregistered data item rest :
      snapshot s feed = Parsed data →
      entries data = item :: rest →
      last_saved_dates s !! feed = None →
      feed_visit s feed (Raise KeyError, fetched s feed)
  | visit_old data item rest saved :
      snapshot s feed = Parsed data →
      entries data = item :: rest →
      last_saved_dates s !! feed = Some saved →
      dt_le (datetime_of_tuple6 (published_parsed item)) saved →
      feed_visit s feed
        (Ret tt, mk_state (feeds s) (last_saved_dates s)
           (EvSleep REQUESTS_INTERVAL :: EvFetch (AWS_RSS_URL feed) :: history s))
  | visit_new data item rest saved code :
      snapshot s feed = Parsed data →
      entries data = item :: rest →
      last_saved_dates s !! feed = Some saved →
      dt_lt saved (datetime_of_tuple6 (published_parsed item)) →
      slack_server env (EvFetch (AWS_RSS_URL feed) :: history s) slack_webhook
                   (slack_payload item slack_channel) = Response code →
      feed_visit s feed
        (Ret tt,
         mk_state (feeds s)
           (<[feed := datetime_of_tuple6 (published_parsed item)]> (last_saved_dates s))
           (EvSleep REQUESTS_INTERVAL
            :: EvLog INFO "Notification sent to Slack!" []
            :: EvPost slack_webhook (slack_payload item slack_channel)
            :: EvFetch (AWS_RSS_URL feed) :: history s))
  | visit_unreachable data item rest saved :
      snapshot s feed = Parsed data →
      entries data = item :: rest →
      last_saved_dates s !! feed = Some saved →
      dt_lt saved (datetime_of_tuple6 (published_parsed item)) →
      slack_server env (EvFetch (AWS_RSS_URL feed) :: history s) slack_webhook
                   (slack_payload item slack_channel) = Unreachable →
      feed_visit s feed
        (Raise ConnectionError,
         mk_state (feeds s) (last_saved_dates s)
           (EvPost slack_webhook (slack_payload item slack_channel)
            :: EvFetch (AWS_RSS_URL feed) :: history s)).

(** What one visit may do to the stored dates: each one stays or is
    replaced by a later one. *)
Definition date_step (m m' : gmap string datetime) : Prop :=
  ∀ g d, m !! g = Some d →
         m' !! g = Some d ∨ ∃ d', m' !! g = Some d' ∧ dt_lt d d'.

(** ** The steady state *)

(** What a stretch of the steady state may do to the watched feeds:
    the list and the keys stay, and no stored date moves backwards. *)
Record watch_rel (s s' : state) : Prop := mk_watch_rel {
  wr_feeds : feeds s' = feeds s;
  wr_keys : dom (last_saved_dates s') = dom (last_saved_dates s);
  wr_dates : ∀ g d, last_saved_dates s !! g = Some d →
             ∃ d', last_saved_dates s' !! g = Some d' ∧ dt_le d d'
}.

(** Every feed of the list has a stored date. *)
Definition registered (s : state) : Prop :=
  ∀ f, f ∈ feeds s → is_Some (last_saved_dates s !! f).

(** A request for a feed is a request for a feed of [F]. *)
Definition watched_event (F : list string) (e : event) : Prop :=
  match e with
  | EvFetch u => ∃ f, f ∈ F ∧ u = AWS_RSS_URL f
  | _ => True
  end.

(** [s] continues the run of [s0] with calls that concern only [F]. *)
Definition grows_from (F : list string) (s0 s : state) : Prop :=
  ∃ later, history s = later ++ history s0 ∧ Forall (watched_event F) later.

(** The last call was a POST that found the endpoint unreachable. *)
Definition post_failed (s : state) : Prop :=
  ∃ h url data, history s = EvPost url data :: h
                ∧ slack_server env h url data = Unreachable.

(** What holds of a state [s] that the steady state reaches from [s0]. *)
Definition steady_inv (s0 s : state) : Prop :=
  watch_rel s0 s ∧ grows_from (feeds s0) s0 s.

(** The last call was a request that the parser refused. *)
Definition fetch_refused (s : state) : Prop :=
  ∃ h url, history s = EvFetch url :: h ∧ feed_server env h url = Refused.

(** The last call was a request that came back without a status. *)
Definition fetch_without_status (s : state) : Prop :=
  ∃ h url data, history s = EvFetch url :: h
                ∧ feed_server env h url = Parsed data ∧ status data = None.

(** The exceptions of the steady state that is entered with every feed
    registered: the one of a POST that found the endpoint unreachable and
    the one of a request that the parser refused. *)
Definition steady_exn (s0 : state) (e : exn) (s : state) : Prop :=
  ((e = ConnectionError ∧ post_failed s) ∨ (e = InvalidURL ∧ fetch_refused s))
  ∧ steady_inv s0 s.

(** ** Seeding *)

(** The date seeding stores for a feed that answered with [data]. *)
Definition seed_date (data : FeedParserDict) : datetime :=
  match entries data with
  | e :: _ => datetime_of_tuple6 (published_parsed e)
  | [] => START_TIME env
  end.

(** The warning of line 84. *)
Definition ignoring (feed : string) : event :=
  EvLog WARNING "Ignoring not existent feed: %s" [AStr (AWS_RSS_URL feed)].

(** The five ways in which seeding one candidate can go. *)
Inductive seed_visit (s : state) (feed : string) : result unit * state → Prop :=
  | seed_refused :
      snapshot s feed = Refused →
      seed_visit s feed (Raise InvalidURL, fetched s feed)
  | seed_no_status data :
      snapshot s feed = Parsed data →
      status data = None →
      seed_visit s feed (Raise AttributeError, fetched s feed)
  | seed_kept data :
      snapshot s feed = Parsed data →
      status data = Some 200 →
      seed_visit s feed
        (Ret tt,
         mk_state (feeds s)
           (<[feed := seed_date data]> (last_saved_dates s))
           (EvSleep REQUESTS_INTERVAL :: EvFetch (AWS_RSS_URL feed) :: history s))
  | seed_dropped data code r :
      snapshot s feed = Parsed data →
      status data = Some code →
      code ≠ 200 →
      remove_first feed (feeds s) = Some r →
      seed_visit s feed
        (Ret tt,
         mk_state r (last_saved_dates s)
           (ignoring feed :: EvFetch (AWS_RSS_URL feed) :: history s))
  | seed_absent data code :
      snapshot s feed = Parsed data →
      status data = Some code →
      code ≠ 200 →
      remove_first feed (feeds s) = None →
      seed_visit s feed
        (Raise ValueError,
         mk_state (feeds s) (last_saved_dates s)
           (ignoring feed :: EvFetch (AWS_RSS_URL feed) :: history s)).

(** The invariant of the seeding loop, for any candidate list: a name
    occurs in [feeds] at least as often as it is still to be visited,
    and it has a stored date exactly when it occurs more often. *)
Definition seed_inv (todo : list string) (s : state) : Prop :=
  ∀ f, (occurrences f todo ≤ occurrences f (feeds s))%nat
       ∧ (f ∈ dom (last_saved_dates s)
          ↔ (occurrences f todo < occurrences f (feeds s))%nat).

(** After seeding, the keys of the map are the names in the list. *)
Definition keys_match (s : state) : Prop :=
  dom (last_saved_dates s) = list_to_set (feeds s).

(** What a candidate whose request came back with a status found when
    its turn came, and what seeding made of it. *)
Definition seeding_verdict (s' : state) (c : string) : Prop :=
  ∃ h later data code,
    history s' = later ++ EvFetch (AWS_RSS_URL c) :: h
    ∧ feed_server env h (AWS_RSS_URL c) = Parsed data
    ∧ status data = Some code
    ∧ (code ≠ 200 →
         (c ∉ feeds s') ∧ last_saved_dates s' !! c = None
         ∧ ignoring c ∈ later)
    ∧ (code = 200 →
         c ∈ feeds s'
         ∧ last_saved_dates s' !! c = Some (seed_date data)).

(** The request for [c] is the last call made, and it ended seeding with
    [e]: the parser raised, or the parsed feed carries no status. *)
Definition seeding_failure (e : exn) (s' : state) (c : string) : Prop :=
  ∃ h,
    history s' = EvFetch (AWS_RSS_URL c) :: h
    ∧ ((e = InvalidURL ∧ feed_server env h (AWS_RSS_URL c) = Refused)
       ∨ (e = AttributeError
          ∧ ∃ data, feed_server env h (AWS_RSS_URL c) = Parsed data
                    ∧ status data = None)).

(** A feed server whose every answer is a parsed feed with a status. *)
Definition answers_with_status : Prop :=
  ∀ h url, ∃ data code, feed_server env h url = Parsed data ∧ status data = Some code.

(** The exceptions of seeding: a request that the parser refused or that
    came back without a status, for a name that is still in the list. *)
Definition seed_exn (e : exn) (s : state) : Prop :=
  ((e = InvalidURL ∧ fetch_refused s)
   ∨ (e = AttributeError ∧ fetch_without_status s))
  ∧ feeds s ≠ [].

(** ** The whole run *)

(** The error of lines 99-100. *)
Definition no_valid_feeds : event :=
  EvLog ERROR "No valid feeds left. TIP: Do not specify feeds to watch %s."
        [AStr (AWS_RSS_URL "all")].

(** The state in which seeding leaves. *)
Definition seeded (s : state) : state := (seed env s).2.

(** The state after the abort of lines 98-101. *)
Definition aborted (s : state) : state :=
  mk_state (feeds s) (last_saved_dates s) (no_valid_feeds :: history s).

(** A run of [check_loop] that is still in its steady state. *)
Definition running (s0 : state) (s : state) : Prop :=
  (seed env s0).1 = Ret tt ∧ feeds (seeded s0) ≠ [] ∧ steady_inv (seeded s0) s.

(** A run of [check_loop] that has ended: while seeding, by a request
    that was refused or came back without a status; by [sys.exit(1)] on an
    empty list; or in the steady state, by a POST or a request that
    raised. *)
Definition stopped (s0 : state) (e : exn) (s : state) : Prop :=
  (seed env s0 = (Raise e, s) ∧ seed_exn e s)
  ∨ ((seed env s0).1 = Ret tt ∧ e = SystemExit 1
     ∧ feeds (seeded s0) = [] ∧ s = aborted (seeded s0))
  ∨ ((seed env s0).1 = Ret tt ∧ feeds (seeded s0) ≠ []
     ∧ steady_exn (seeded s0) e s).

(** ** Severities, after the specification *)

(** The severities of the specification. *)
Inductive Severity := InformationalResolved | Informational | Alert.

(** The colour each severity is shown in. *)
Definition severity_color (sev : Severity) : string :=
  match sev with
  | InformationalResolved => "good"
  | Informational => "warning"
  | Alert => "danger"
  end.

(** The rule of the specification, read off its words: the first
    pattern found in the title decides, and a title with neither pattern
    is an alert. *)
Inductive classified (t : string) : Severity → Prop :=
  | classified_resolved :
      contains t "Service is operating normally:" →
      classified t InformationalResolved
  | classified_informational :
      ¬ contains t "Service is operating normally:" →
      contains t "Informational message:" →
      classified t Informational
  | classified_alert :
      ¬ contains t "Service is operating normally:" →
      ¬ contains t "Informational message:" →
      classified t Alert.

End Vocabulary.

(** ** Sample runs *)

Module Samples.

Definition T0 : struct_time := mk_struct_time 2016 3 1 10 0 0 1 61 0.
Definition T1 : struct_time := mk_struct_time 2016 3 1 11 30 0 1 61 0.

Definition D0 : datetime := datetime_of_tuple6 T0.
Definition D1 : datetime := datetime_of_tuple6 T1.

Definition incident : Entry :=
  mk_Entry "Informational message: Network connectivity"
           "http://status.aws.amazon.com/#ec2" "We are investigating." T0.

Definition resolved : Entry :=
  mk_Entry "Service is operating normally: Resolved"
           "http://status.aws.amazon.com/#ec2" "The issue has been resolved." T1.

(** The number of requests for feeds made so far. *)
Definition fetches (h : list event) : nat := length (fetch_log h).

(** A feed that shows [incident] until the third request, and
    [resolved] on top of it from then on. *)
Definition ec2_feed (h : list event) (url : string) : parse_outcome :=
  match fetches h with
  | 0%nat | 1%nat => Parsed (mk_FeedParserDict (Some 200) [incident])
  | _ => Parsed (mk_FeedParserDict (Some 200) [resolved; incident])
  end.

Definition started : datetime := mk_datetime 2016 3 1 9 0 0 250000.

(** The webhook answers 200, answers 500, or cannot be reached. *)
Definition env_up : environment :=
  mk_environment started ec2_feed (λ _ _ _, Response 200).
Definition env_500 : environment :=
  mk_environment started ec2_feed (λ _ _ _, Response 500).
Definition env_down : environment :=
  mk_environment started ec2_feed (λ _ _ _, Unreachable).

(** The watch state with [ec2] last seen at [D0]. *)
Definition watching_ec2 (h : list event) : state :=
  mk_state ["ec2"] {[ "ec2" := D0 ]} h.

(** A history with two requests behind it. *)
Definition two_requests : list event :=
  [EvSleep 60; EvSleep 2; EvFetch (AWS_RSS_URL "ec2");
   EvSleep 2; EvFetch (AWS_RSS_URL "ec2")].

(** A name given twice whose first request succeeds and whose second
    does not. *)
Definition flaky_feed (h : list event) (url : string) : parse_outcome :=
  match fetches h with
  | 1%nat => Parsed (mk_FeedParserDict (Some 404) [])
  | _ => Parsed (mk_FeedParserDict (Some 200) [incident])
  end.

Definition env_flaky : environment :=
  mk_environment started flaky_feed (λ _ _ _, Response 200).

(** Two feeds that answer with entries while seeding and with an
    empty entry list afterwards. *)
Definition quiet_feed (h : list event) (url : string) : parse_outcome :=
  match fetches h with
  | 0%nat | 1%nat => Parsed (mk_FeedParserDict (Some 200) [incident])
  | _ => Parsed (mk_FeedParserDict (Some 200) [])
  end.

Definition env_quiet : environment :=
  mk_environment started quiet_feed (λ _ _ _, Response 200).

(** No feed exists. *)
Definition env_none : environment :=
  mk_environment started (λ _ _, Parsed (mk_FeedParserDict (Some 404) []))
                 (λ _ _ _, Response 200).

(** The first request is answered with 404; from the second one on the
    host of the feeds cannot be reached, and the parsed feed has neither
    status nor entries. *)
Definition offline_feed (h : list event) (url : string) : parse_outcome :=
  match fetches h with
  | 0%nat => Parsed (mk_FeedParserDict (Some 404) [])
  | _ => Parsed (mk_FeedParserDict None [])
  end.

Definition env_offline : environment :=
  mk_environment started offline_feed (λ _ _ _, Response 200).

(** The parser refuses every URL from the third request on. *)
Definition refusing_feed (h : list event) (url : string) : parse_outcome :=
  match fetches h with
  | 0%nat | 1%nat => Parsed (mk_FeedParserDict (Some 200) [incident])
  | _ => Refused
  end.

Definition env_refusing : environment :=
  mk_environment started refusing_feed (λ _ _ _, Response 200).




End Samples.

(** * The vocabulary of the further properties *)

Section Alphabets.

Variable env : environment.
Variables slack_webhook slack_channel : string.

(** [item] is the first entry of a snapshot that the feed server gives
    for some feed at some point. *)
Definition served (item : Entry) : Prop :=
  ∃ h feed data rest,
    feed_server env h (AWS_RSS_URL feed) = Parsed data
    ∧ entries data = item :: rest.

(** The later state continues the history of the earlier one with
    events that all satisfy [P]. *)
Definition only (P : event → Prop) : relation state :=
  λ s s', ∃ new, history s' = new ++ history s ∧ Forall P new.

(** What seeding may add to a history: requests, pauses of
    [REQUESTS_INTERVAL] and the warning of line 84. *)
Definition seeding_event (e : event) : Prop :=
  match e with
  | EvFetch _ => True
  | EvSleep secs => secs = REQUESTS_INTERVAL
  | EvLog lvl fmt _ => lvl = WARNING ∧ fmt = "Ignoring not existent feed: %s"
  | EvPost _ _ => False
  end.

(** What the steady state may add to a history: requests, POSTs to the
    webhook of the payload of a served entry, the two pauses, and the
    record that follows a POST. *)
Definition steady_event (e : event) : Prop :=
  match e with
  | EvFetch _ => True
  | EvSleep secs => secs = REQUESTS_INTERVAL ∨ secs = CHECKS_INTERVAL
  | EvLog lvl fmt args => lvl = INFO ∧ fmt = "Notification sent to Slack!" ∧ args = []
  | EvPost url data =>
      url = slack_webhook
      ∧ ∃ item, served item ∧ data = slack_payload item slack_channel
  end.

(** A POST of the script: to the webhook, with the payload that
    [send_to_slack] builds for the channel from a served entry. *)
Definition script_post (e : event) : Prop :=
  match e with
  | EvPost url data =>
      url = slack_webhook
      ∧ ∃ item, served item ∧ data = slack_payload item slack_channel
  | _ => True
  end.

(** The list of feeds only loses elements. *)
Definition feeds_shrink : relation state :=
  λ s s', feeds s' `sublist_of` feeds s.

(** A stored date that has an origin: [START_TIME], or the date of a
    served entry. *)
Definition date_origin (d : datetime) : Prop :=
  d = START_TIME env
  ∨ ∃ item, served item ∧ d = datetime_of_tuple6 (published_parsed item).

(** Every stored date has an origin. *)
Definition dates_from_feeds (s : state) : Prop :=
  ∀ f d, last_saved_dates s !! f = Some d → date_origin d.

(** A property of states that, once it holds, holds on. *)
Definition keeps (I : state → Prop) : relation state :=
  λ s s', I s → I s'.

End Alphabets.

(** What the script reads of an entry: its title, link and summary, and
    the date made of the first six fields of its time. *)
Definition entry_view (e : Entry) : string * string * string * datetime :=
  (title e, link e, summary e, datetime_of_tuple6 (published_parsed e)).

(** What the script reads of the outcome of a request: whether the
    parser returns, and then the status of the snapshot, if it has one,
    and its first entry, if it has one. *)
Definition snapshot_view (o : parse_outcome)
    : option (option Z * option (string * string * string * datetime)) :=
  match o with
  | Parsed data => Some (status data, entry_view <$> head (entries data))
  | Refused => None
  end.

(** Two environments the script cannot tell apart: the same start time,
    requests whose outcomes have the same view, and a webhook that raises
    in the one exactly when it raises in the other. *)
Definition same_view (e1 e2 : environment) : Prop :=
  START_TIME e1 = START_TIME e2
  ∧ (∀ h url, snapshot_view (feed_server e1 h url)
              = snapshot_view (feed_server e2 h url))
  ∧ (∀ h url data, slack_server e1 h url data = Unreachable
                   ↔ slack_server e2 h url data = Unreachable).

(** * Properties *)

(** ** The order on datetimes *)

Section DatetimeOrder.

Lemma lex_opp c1 c2 : lex (CompOpp c1) (CompOpp c2) = CompOpp (lex c1 c2).
Proof. by destruct c1. Qed.

Lemma datetime_cmp_opp a b : datetime_cmp b a = CompOpp (datetime_cmp a b).
Proof.
  unfold datetime_cmp.
  rewrite (Z.compare_antisym (year a)), (Z.compare_antisym (month a)),
    (Z.compare_antisym (day a)), (Z.compare_antisym (hour a)),
    (Z.compare_antisym (minute a)), (Z.compare_antisym (second a)),
    (Z.compare_antisym (microsecond a)).
  by rewrite !lex_opp.
Qed.

Lemma datetime_cmp_refl a : datetime_cmp a a = Eq.
Proof. unfold datetime_cmp. by rewrite !Z.compare_refl. Qed.

Lemma datetime_cmp_eq a b : datetime_cmp a b = Eq → a = b.
Proof.
  destruct a as [a1 a2 a3 a4 a5 a6 a7], b as [b1 b2 b3 b4 b5 b6 b7].
  unfold datetime_cmp; simpl.
  destruct (Z.compare_spec a1 b1); simpl; try discriminate.
  destruct (Z.compare_spec a2 b2); simpl; try discriminate.
  destruct (Z.compare_spec a3 b3); simpl; try discriminate.
  destruct (Z.compare_spec a4 b4); simpl; try discriminate.
  destruct (Z.compare_spec a5 b5); simpl; try discriminate.
  destruct (Z.compare_spec a6 b6); simpl; try discriminate.
  destruct (Z.compare_spec a7 b7); simpl; try discriminate.
  intros _. by subst.
Qed.

(** One field of a lexicographic comparison of three values. *)
Local Ltac lex_field x y z :=
  destruct (Z.compare_spec x y); simpl; try discriminate;
  destruct (Z.compare_spec y z); simpl; try discriminate;
  destruct (Z.compare_spec x z); simpl; try reflexivity; try lia.

Lemma dt_lt_trans a b c : dt_lt a b → dt_lt b c → dt_lt a c.
Proof.
  destruct a as [a1 a2 a3 a4 a5 a6 a7], b as [b1 b2 b3 b4 b5 b6 b7],
    c as [c1 c2 c3 c4 c5 c6 c7].
  unfold dt_lt, datetime_cmp; simpl.
  lex_field a1 b1 c1. lex_field a2 b2 c2. lex_field a3 b3 c3.
  lex_field a4 b4 c4. lex_field a5 b5 c5. lex_field a6 b6 c6.
  lex_field a7 b7 c7.
Qed.

Lemma dt_lt_irrefl a : ¬ dt_lt a a.
Proof. unfold dt_lt. by rewrite datetime_cmp_refl. Qed.

Lemma dt_le_refl a : dt_le a a.
Proof. by left. Qed.

Lemma dt_lt_le a b : dt_lt a b → dt_le a b.
Proof. by right. Qed.

Lemma dt_le_trans a b c : dt_le a b → dt_le b c → dt_le a c.
Proof.
  intros [-> | Hab] [-> | Hbc]; [by left | by right | by right |].
  right. by eapply dt_lt_trans.
Qed.

(** [last_pub > saved] holds exactly when [saved] precedes [last_pub]. *)
Lemma datetime_gt_true a b : datetime_gt a b = true ↔ dt_lt b a.
Proof.
  unfold datetime_gt, dt_lt. rewrite (datetime_cmp_opp a b).
  destruct (datetime_cmp a b); simpl; split; congruence.
Qed.

(** [last_pub > saved] fails exactly when [last_pub] equals or precedes
    [saved]. *)
Lemma datetime_gt_false a b : datetime_gt a b = false ↔ dt_le a b.
Proof.
  unfold datetime_gt, dt_le, dt_lt.
  destruct (datetime_cmp a b) eqn:E; split; try congruence; try tauto.
  - intros _. left. by apply datetime_cmp_eq.
  - intros [-> | ?]; [by rewrite datetime_cmp_refl in E | congruence].
Qed.

Lemma dt_le_not_lt a b : dt_le a b → ¬ dt_lt b a.
Proof.
  intros Hle Hlt. apply datetime_gt_false in Hle. apply datetime_gt_true in Hlt.
  congruence.
Qed.

End DatetimeOrder.

(** ** Substring search *)

Section Strings.

Lemma string_app_nil_l (t : string) : "" +:+ t = t.
Proof. reflexivity. Qed.

Lemma string_app_cons a (s t : string) : String a s +:+ t = String a (s +:+ t).
Proof. reflexivity. Qed.

Lemma starts_with_spec p s :
  starts_with p s = true ↔ ∃ post, s = p +:+ post.
Proof.
  revert s. induction p as [| a p IH]; intros s; simpl.
  - split; [intros _; by exists s | done].
  - destruct s as [| b s].
    + split; [done | intros [post Hp]; discriminate].
    + case_decide as Hab.
      * subst b. rewrite IH. split.
        -- intros [post ->]. by exists post.
        -- intros [post Hp]. rewrite string_app_cons in Hp.
           injection Hp as ->. by exists post.
      * split; [done |].
        intros [post Hp]. rewrite string_app_cons in Hp. congruence.
Qed.

Lemma str_in_spec needle hay : str_in needle hay = true ↔ contains hay needle.
Proof.
  unfold contains. induction hay as [| c hay IH]; simpl.
  - rewrite orb_false_r, starts_with_spec. split.
    + intros [post Hp]. by exists EmptyString, post.
    + intros [[| a pre] [post Hp]].
      * by exists post.
      * rewrite string_app_cons in Hp. discriminate.
  - rewrite orb_true_iff, starts_with_spec, IH. split.
    + intros [[post Hp] | (pre & post & Hp)].
      * by exists EmptyString, post.
      * exists (String c pre), post. by rewrite string_app_cons, Hp.
    + intros [[| a pre] [post Hp]].
      * left. by exists post.
      * right. rewrite string_app_cons in Hp. injection Hp as -> Hp.
        by exists pre, post.
Qed.

Lemma string_app_length (s t : string) :
  String.length (s +:+ t) = (String.length s + String.length t)%nat.
Proof.
  induction s as [| a s IH]; [done |].
  rewrite string_app_cons. simpl. by rewrite IH.
Qed.

Lemma string_app_inj_l (s1 s2 t : string) : s1 +:+ t = s2 +:+ t → s1 = s2.
Proof.
  revert s2. induction s1 as [| a s1 IH]; intros [| b s2] H.
  - done.
  - apply (f_equal String.length) in H.
    rewrite string_app_cons, string_app_nil_l in H. simpl in H.
    rewrite string_app_length in H. lia.
  - apply (f_equal String.length) in H.
    rewrite string_app_cons, string_app_nil_l in H. simpl in H.
    rewrite string_app_length in H. lia.
  - rewrite !string_app_cons in H. injection H as -> H. f_equal. by apply IH.
Qed.

(** Distinct feed names have distinct URLs. *)
Lemma AWS_RSS_URL_inj f1 f2 : AWS_RSS_URL f1 = AWS_RSS_URL f2 → f1 = f2.
Proof.
  unfold AWS_RSS_URL. intros H.
  apply (inj (String.app _)) in H. by apply string_app_inj_l in H.
Qed.

End Strings.

(** ** One feed of one steady-state round *)

Section CheckFeed.

Variable env : environment.
Variables slack_webhook slack_channel : string.

Lemma logging_debug_skip fmt args s : logging_log DEBUG fmt args s = (Ret tt, s).
Proof. reflexivity. Qed.

Lemma logging_debug_skip_bind {A} fmt args (k : M A) :
  (logging_log DEBUG fmt args ;; k) = k.
Proof. reflexivity. Qed.

Lemma check_feed_refused s feed :
  snapshot env s feed = Refused →
  check_feed env slack_webhook slack_channel feed s = (Raise InvalidURL, fetched s feed).
Proof.
  unfold snapshot. intros Ha.
  unfold check_feed, fetch, feedparser_parse, bind. by rewrite Ha.
Qed.

Lemma check_feed_empty s feed data :
  snapshot env s feed = Parsed data →
  entries data = [] →
  check_feed env slack_webhook slack_channel feed s = (Ret tt, fetched s feed).
Proof.
  unfold snapshot. intros Ha He.
  unfold check_feed, fetch, feedparser_parse, bind. by rewrite Ha, He.
Qed.

(** Runs [check_feed] up to the first look at the stored date, on a
    snapshot known by [Ha] and [He]. *)
Local Ltac visit_with Ha He :=
  unfold check_feed, fetch, feedparser_parse, bind, last_pub_date, bind;
  rewrite Ha, He; simpl; unfold dates_get; simpl.

Lemma check_feed_unregistered s feed data item rest :
  snapshot env s feed = Parsed data →
  entries data = item :: rest →
  last_saved_dates s !! feed = None →
  check_feed env slack_webhook slack_channel feed s = (Raise KeyError, fetched s feed).
Proof.
  unfold snapshot. intros Ha He Hk.
  visit_with Ha He. by rewrite Hk.
Qed.

Lemma check_feed_old s feed data item rest saved :
  snapshot env s feed = Parsed data →
  entries data = item :: rest →
  last_saved_dates s !! feed = Some saved →
  datetime_gt (datetime_of_tuple6 (published_parsed item)) saved = false →
  check_feed env slack_webhook slack_channel feed s =
    (Ret tt, mk_state (feeds s) (last_saved_dates s)
               (EvSleep REQUESTS_INTERVAL :: EvFetch (AWS_RSS_URL feed) :: history s)).
Proof.
  unfold snapshot. intros Ha He Hk Hgt.
  visit_with Ha He. rewrite Hk. simpl. rewrite Hk. by rewrite Hgt.
Qed.

Lemma check_feed_new s feed data item rest saved code :
  snapshot env s feed = Parsed data →
  entries data = item :: rest →
  last_saved_dates s !! feed = Some saved →
  datetime_gt (datetime_of_tuple6 (published_parsed item)) saved = true →
  slack_server env (EvFetch (AWS_RSS_URL feed) :: history s) slack_webhook
               (slack_payload item slack_channel) = Response code →
  check_feed env slack_webhook slack_channel feed s =
    (Ret tt,
     mk_state (feeds s)
       (<[feed := datetime_of_tuple6 (published_parsed item)]> (last_saved_dates s))
       (EvSleep REQUESTS_INTERVAL
        :: EvLog INFO "Notification sent to Slack!" []
        :: EvPost slack_webhook (slack_payload item slack_channel)
        :: EvFetch (AWS_RSS_URL feed) :: history s)).
Proof.
  unfold snapshot. intros Ha He Hk Hgt Hpost.
  visit_with Ha He. rewrite Hk. simpl. rewrite Hk, Hgt.
  unfold send_to_slack, requests_post, bind. simpl. by rewrite Hpost.
Qed.

Lemma check_feed_unreachable s feed data item rest saved :
  snapshot env s feed = Parsed data →
  entries data = item :: rest →
  last_saved_dates s !! feed = Some saved →
  datetime_gt (datetime_of_tuple6 (published_parsed item)) saved = true →
  slack_server env (EvFetch (AWS_RSS_URL feed) :: history s) slack_webhook
               (slack_payload item slack_channel) = Unreachable →
  check_feed env slack_webhook slack_channel feed s =
    (Raise ConnectionError,
     mk_state (feeds s) (last_saved_dates s)
       (EvPost slack_webhook (slack_payload item slack_channel)
        :: EvFetch (AWS_RSS_URL feed) :: history s)).
Proof.
  unfold snapshot. intros Ha He Hk Hgt Hpost.
  visit_with Ha He. rewrite Hk. simpl. rewrite Hk, Hgt.
  unfold send_to_slack, requests_post, bind. simpl. by rewrite Hpost.
Qed.

End CheckFeed.

(** ** Reasoning about loops *)

Section Loops.

Context (R : relation state) `{!PreOrder R}.

Lemma preserves_ret {A} (a : A) : preserves R (ret a).
Proof. intros s. simpl. reflexivity. Qed.

Lemma preserves_raise {A} e : preserves R (raise (A := A) e).
Proof. intros s. simpl. reflexivity. Qed.

Lemma preserves_bind {A B} (m : M A) (k : A → M B) :
  preserves R m → (∀ a, preserves R (k a)) → preserves R (bind m k).
Proof.
  intros Hm Hk s. unfold bind. specialize (Hm s).
  destruct (m s) as [[a | e] s1]; simpl in *; [| done].
  etrans; [exact Hm | apply Hk].
Qed.

Lemma preserves_for_each {A} (l : list A) (body : A → M unit) :
  (∀ x, preserves R (body x)) → preserves R (for_each l body).
Proof.
  intros Hb. induction l as [| x l IH]; simpl.
  - apply preserves_ret.
  - apply preserves_bind; [apply Hb | intros _; apply IH].
Qed.

Lemma preserves_while_true n (body : M unit) :
  preserves R body → preserves R (while_true n body).
Proof.
  intros Hb. induction n as [| n IH]; simpl.
  - apply preserves_ret.
  - apply preserves_bind; [apply Hb | intros _; apply IH].
Qed.

End Loops.

(** Iterating over the live list [feeds] and over the elements it had
    when the loop began are the same thing for a body that leaves the list
    alone, as the bodies of the two loops over [feeds] do. *)
Lemma for_live_for_each (body : string → M unit) :
  (∀ x s, feeds (body x s).2 = feeds s) →
  ∀ fuel i s, (length (feeds s) ≤ i + fuel)%nat →
    for_live fuel i body s = for_each (drop i (feeds s)) body s.
Proof.
  intros Hbody fuel. induction fuel as [| fuel IH]; intros i s Hlen; simpl.
  - by rewrite drop_ge by lia.
  - unfold bind at 1, get_feeds.
    destruct (feeds s !! i) as [x |] eqn:Hi.
    + rewrite (drop_S _ _ _ Hi). simpl. unfold bind.
      pose proof (Hbody x s) as Hf.
      destruct (body x s) as [[[] | e] s1]; simpl in *; [| done].
      rewrite IH by (rewrite Hf; lia). by rewrite Hf.
    + apply lookup_ge_None in Hi. by rewrite drop_ge by lia.
Qed.

Section LoopInvariants.

Lemma outcome_bind {A B} (m : M A) (k : A → M B) I J E s :
  outcome I E (m s) →
  (∀ a s1, I s1 → outcome J E (k a s1)) →
  outcome J E (bind m k s).
Proof.
  unfold bind. destruct (m s) as [[a | e] s1]; simpl; [| done].
  intros HI Hk. by apply Hk.
Qed.

(** A [for] loop with an invariant indexed by the elements still to
    visit. *)
Lemma for_each_outcome {A} (body : A → M unit)
    (I : list A → state → Prop) (E : exn → state → Prop) :
  (∀ x rest s, I (x :: rest) s → outcome (I rest) E (body x s)) →
  ∀ l s, I l s → outcome (I []) E (for_each l body s).
Proof.
  intros Hb l. induction l as [| x l IH]; intros s HI; simpl; [done |].
  eapply outcome_bind; [by apply Hb |].
  intros _ s1 H1. by apply IH.
Qed.

Lemma while_true_outcome (body : M unit)
    (I : state → Prop) (E : exn → state → Prop) :
  (∀ s, I s → outcome I E (body s)) →
  ∀ n s, I s → outcome I E (while_true n body s).
Proof.
  intros Hb n. induction n as [| n IH]; intros s HI; simpl; [done |].
  eapply outcome_bind; [by apply Hb |].
  intros _ s1 H1. by apply IH.
Qed.

Lemma outcome_weaken {A} (I I' : state → Prop) (E E' : exn → state → Prop)
    (rs : result A * state) :
  outcome I E rs → (∀ s, I s → I' s) → (∀ e s, E e s → E' e s) →
  outcome I' E' rs.
Proof. destruct rs as [[a | e] s]; simpl; auto. Qed.

End LoopInvariants.

(** ** The steady state *)

Section SteadyState.

Variable env : environment.
Variables slack_webhook slack_channel : string.

#[local] Abbreviation check_feed' := (check_feed env slack_webhook slack_channel).
#[local] Abbreviation check_pass' := (check_pass env slack_webhook slack_channel).
#[local] Abbreviation steady' n := (steady env n slack_webhook slack_channel).

Lemma check_feed_visit s feed : feed_visit env slack_webhook slack_channel s feed (check_feed' feed s).
Proof.
  destruct (snapshot env s feed) as [data |] eqn:Ha.
  2: { rewrite check_feed_refused by done. by constructor. }
  destruct (entries data) as [| item rest] eqn:He.
  { erewrite check_feed_empty by done. by econstructor. }
  destruct (last_saved_dates s !! feed) as [saved |] eqn:Hk.
  2: { erewrite check_feed_unregistered by done. by econstructor. }
  destruct (datetime_gt (datetime_of_tuple6 (published_parsed item)) saved) eqn:Hgt.
  2: { erewrite check_feed_old by done. econstructor; [done.. |].
       by apply datetime_gt_false. }
  apply datetime_gt_true in Hgt as Hlt.
  destruct (slack_server env (EvFetch (AWS_RSS_URL feed) :: history s) slack_webhook
              (slack_payload item slack_channel)) as [code |] eqn:Hp.
  - erewrite check_feed_new by done. by econstructor.
  - erewrite check_feed_unreachable by done. by econstructor.
Qed.

#[global] Instance watch_rel_preorder : PreOrder watch_rel.
Proof.
  split.
  - intros s. split; [done.. |]. intros g d Hg. exists d. split; [done | apply dt_le_refl].
  - intros s1 s2 s3 [Hf1 Hk1 Hd1] [Hf2 Hk2 Hd2]. split; [congruence.. |].
    intros g d Hg. destruct (Hd1 g d Hg) as (d1 & Hg1 & Hle1).
    destruct (Hd2 g d1 Hg1) as (d2 & Hg2 & Hle2).
    exists d2. split; [done | by eapply dt_le_trans].
Qed.

Lemma date_step_refl m : date_step m m.
Proof. intros g d Hg. by left. Qed.

Lemma date_step_insert m feed saved d :
  m !! feed = Some saved → dt_lt saved d → date_step m (<[feed := d]> m).
Proof.
  intros Hk Hlt g d0 Hg. destruct (decide (g = feed)) as [-> | Hne].
  - right. exists d. rewrite lookup_insert_eq. split; [done | congruence].
  - left. by rewrite lookup_insert_ne.
Qed.

Lemma check_feed_date_step s feed :
  date_step (last_saved_dates s) (last_saved_dates (check_feed' feed s).2).
Proof.
  destruct (check_feed_visit s feed); simpl;
    eauto using date_step_refl, date_step_insert.
Qed.

Lemma check_feed_feeds s feed : feeds (check_feed' feed s).2 = feeds s.
Proof. by destruct (check_feed_visit s feed). Qed.

(** The steady state may read [feeds] once per round: iterating over
    the live list visits the same feeds. *)
Lemma check_feed_live s :
  for_live (length (feeds s)) 0 check_feed' s = for_each (feeds s) check_feed' s.
Proof.
  rewrite for_live_for_each; [done | | lia].
  intros x s1. apply check_feed_feeds.
Qed.

Lemma check_feed_keys s feed :
  dom (last_saved_dates (check_feed' feed s).2) = dom (last_saved_dates s).
Proof.
  destruct (check_feed_visit s feed)
    as [| | | | data item rest saved code Ha He Hk Hlt Hp |];
    simpl; try reflexivity.
  rewrite dom_insert_L. apply elem_of_dom_2 in Hk.
  apply subseteq_union_1_L. by apply singleton_subseteq_l.
Qed.

Lemma check_feed_watch_rel feed : preserves watch_rel (check_feed' feed).
Proof.
  intros s. split.
  - apply check_feed_feeds.
  - apply check_feed_keys.
  - intros g d Hg. destruct (check_feed_date_step s feed g d Hg) as [? | (d' & ? & ?)].
    + exists d. split; [done | apply dt_le_refl].
    + exists d'. split; [done | by apply dt_lt_le].
Qed.

Lemma watch_rel_same s s' :
  feeds s' = feeds s → last_saved_dates s' = last_saved_dates s → watch_rel s s'.
Proof.
  intros Hf Hd. split; [done | by rewrite Hd |].
  intros g d Hg. exists d. rewrite Hd. split; [done | apply dt_le_refl].
Qed.

Lemma emit_watch_rel e : preserves watch_rel (emit e).
Proof. intros s. by apply watch_rel_same. Qed.

Lemma logging_log_watch_rel lvl fmt args : preserves watch_rel (logging_log lvl fmt args).
Proof.
  unfold logging_log. case_decide; [apply emit_watch_rel | apply preserves_ret; apply _].
Qed.

Lemma check_pass_watch_rel : preserves watch_rel check_pass'.
Proof.
  unfold check_pass.
  apply preserves_bind; [apply _ | apply logging_log_watch_rel | intros _].
  apply preserves_bind; [apply _ | intros s; by apply watch_rel_same | intros fs].
  apply preserves_bind; [apply _ | | intros _; apply emit_watch_rel].
  apply preserves_for_each; [apply _ | apply check_feed_watch_rel].
Qed.

Lemma steady_watch_rel n : preserves watch_rel (steady' n).
Proof. apply preserves_while_true; [apply _ | apply check_pass_watch_rel]. Qed.

End SteadyState.

Section SteadyOutcome.

Variable env : environment.
Variables slack_webhook slack_channel : string.

#[local] Abbreviation check_feed' := (check_feed env slack_webhook slack_channel).
#[local] Abbreviation check_pass' := (check_pass env slack_webhook slack_channel).
#[local] Abbreviation steady' n := (steady env n slack_webhook slack_channel).

Lemma grows_from_refl F s : grows_from F s s.
Proof. by exists []. Qed.

Lemma grows_from_step F s0 s s' new :
  grows_from F s0 s → history s' = new ++ history s →
  Forall (watched_event F) new → grows_from F s0 s'.
Proof.
  intros (later & Hl & Hall) Hh Hnew. exists (new ++ later). split.
  - by rewrite Hh, Hl, app_assoc.
  - by apply Forall_app.
Qed.

Lemma steady_inv_refl s : steady_inv s s.
Proof. split; [reflexivity | apply grows_from_refl]. Qed.

Lemma registered_watch_rel s0 s : registered s0 → watch_rel s0 s → registered s.
Proof.
  intros Hr [Hf Hk _] f Hin. rewrite Hf in Hin.
  apply elem_of_dom. rewrite Hk. apply elem_of_dom. by apply Hr.
Qed.

Lemma check_feed_outcome s0 s feed :
  registered s0 → steady_inv s0 s → feed ∈ feeds s0 →
  outcome (steady_inv s0) (steady_exn env s0) (check_feed' feed s).
Proof.
  intros Hr [Hw Hg] Hin.
  assert (watched_event (feeds s0) (EvFetch (AWS_RSS_URL feed))) as Hev
    by (by exists feed).
  pose proof (check_feed_watch_rel env slack_webhook slack_channel feed s) as Hs.
  assert (is_Some (last_saved_dates s !! feed)) as [saved0 Hsaved].
  { eapply registered_watch_rel; [done.. |]. by rewrite (wr_feeds _ _ Hw). }
  revert Hs. destruct (check_feed_visit env slack_webhook slack_channel s feed)
    as [Ha | data Ha He | data item rest Ha He Hk | data item rest saved Ha He Hk Hle
        | data item rest saved code Ha He Hk Hlt Hp
        | data item rest saved Ha He Hk Hlt Hp];
    simpl; intros Hs.
  - assert (steady_inv s0 (fetched s feed)) as Hinv.
    { split; [by etrans |].
      eapply (grows_from_step _ _ _ _ [_]); [done | done |]. by repeat constructor. }
    split; [| done]. right. split; [done |]. by eexists _, _.
  - split; [by etrans |].
    eapply (grows_from_step _ _ _ _ [_]); [done | done |]. by repeat constructor.
  - congruence.
  - split; [by etrans |].
    eapply (grows_from_step _ _ _ _ [_; _]); [done | done |]. by repeat constructor.
  - split; [by etrans |].
    eapply (grows_from_step _ _ _ _ [_; _; _; _]); [done | done |].
    by repeat constructor.
  - assert (steady_inv s0
              (mk_state (feeds s) (last_saved_dates s)
                 (EvPost slack_webhook (slack_payload item slack_channel)
                  :: EvFetch (AWS_RSS_URL feed) :: history s))) as Hinv.
    { split; [by etrans |].
      eapply (grows_from_step _ _ _ _ [_; _]); [done | done |]. by repeat constructor. }
    split; [| done]. left. split; [done |].
    by eexists _, _, _.
Qed.

Lemma check_pass_outcome s0 s :
  registered s0 → steady_inv s0 s →
  outcome (steady_inv s0) (steady_exn env s0) (check_pass' s).
Proof.
  intros Hr Hinv. unfold check_pass. rewrite logging_debug_skip_bind.
  unfold bind at 1. simpl.
  eapply outcome_bind.
  - apply (for_each_outcome check_feed'
             (λ todo s1, steady_inv s0 s1 ∧ todo ⊆ feeds s0) (steady_exn env s0)).
    + intros x rest s1 [H1 Hsub].
      eapply outcome_weaken; [apply check_feed_outcome; try done | |]; simpl.
      * apply Hsub. by left.
      * intros s2 H2. split; [done |]. intros y Hy. apply Hsub. by right.
      * done.
    + split; [done |]. by rewrite (wr_feeds _ _ (proj1 Hinv)).
  - intros _ s1 [[Hw Hg] _]. simpl. split.
    + etrans; [exact Hw |]. by apply watch_rel_same.
    + eapply (grows_from_step _ _ _ _ [_]); [done | done |]. by repeat constructor.
Qed.

(** The steady state keeps its invariant round after round, and ends
    only when a POST raises or a request is refused. *)
Lemma steady_outcome n s :
  registered s → outcome (steady_inv s) (steady_exn env s) (steady' n s).
Proof.
  intros Hr. apply while_true_outcome; [| apply steady_inv_refl].
  intros s1 H1. by apply check_pass_outcome.
Qed.

End SteadyOutcome.

(** ** Seeding *)

Section RemoveFirst.

Lemma occurrences_pos x l : (0 < occurrences x l)%nat ↔ x ∈ l.
Proof.
  induction l as [| y l IH]; simpl.
  - split; [lia | by intros ?%elem_of_nil].
  - rewrite elem_of_cons. case_decide as Hy.
    + subst y. split; [by left | lia].
    + rewrite IH. split; [by right | intros [-> | ?]; done].
Qed.

Lemma occurrences_nodup x l : NoDup l → (occurrences x l ≤ 1)%nat.
Proof.
  induction 1 as [| y l Hy Hnd IH]; simpl; [lia |].
  case_decide as Hxy; [| done]. subst y.
  destruct (decide (0 < occurrences x l)%nat) as [Hpos | Hz]; [| lia].
  by apply occurrences_pos in Hpos.
Qed.

Lemma remove_first_is_Some x l : x ∈ l → is_Some (remove_first x l).
Proof.
  induction l as [| y l IH]; simpl.
  - by intros ?%elem_of_nil.
  - intros Hin. case_decide as Hy; [by eexists |].
    apply elem_of_cons in Hin as [-> | Hin]; [done |].
    destruct (IH Hin) as [r ->]. by eexists.
Qed.

Lemma remove_first_occurrences x l r y :
  remove_first x l = Some r →
  occurrences y l = ((if decide (x = y) then 1 else 0) + occurrences y r)%nat.
Proof.
  revert r. induction l as [| z l IH]; simpl; intros r Hr; [done |].
  destruct (decide (z = x)) as [-> | Hzx].
  - injection Hr as ->. destruct (decide (x = y)); simpl; lia.
  - destruct (remove_first x l) as [r' |] eqn:Hrem; [| done].
    injection Hr as <-. simpl. rewrite (IH r' eq_refl).
    destruct (decide (z = y)) as [-> | Hzy]; [| done].
    destruct (decide (x = y)); [congruence | simpl; lia].
Qed.

Lemma remove_first_elem x l r y :
  remove_first x l = Some r → y ≠ x → (y ∈ r ↔ y ∈ l).
Proof.
  intros Hr Hne. rewrite <- !occurrences_pos.
  rewrite (remove_first_occurrences x l r y Hr).
  destruct (decide (x = y)); [congruence | simpl; lia].
Qed.

Lemma remove_first_nodup x l r : remove_first x l = Some r → NoDup l → (x ∉ r) ∧ NoDup r.
Proof.
  intros Hr Hnd. split.
  - intros Hin%occurrences_pos. pose proof (occurrences_nodup x l Hnd) as Hle.
    rewrite (remove_first_occurrences x l r x Hr) in Hle.
    rewrite decide_True in Hle by done. lia.
  - revert r Hr. induction Hnd as [| z l Hz Hnd IH]; simpl; intros r Hr; [done |].
    destruct (decide (z = x)) as [-> | Hzx]; [by injection Hr as <- |].
    destruct (remove_first x l) as [r' |] eqn:Hrem; [| done].
    injection Hr as <-. constructor; [| by apply IH].
    intros Hin. apply Hz. by apply (remove_first_elem x l r' z Hrem).
Qed.

End RemoveFirst.

Section Seeding.

Variable env : environment.

Lemma seed_feed_refused s feed :
  snapshot env s feed = Refused →
  seed_feed env feed s = (Raise InvalidURL, fetched s feed).
Proof.
  unfold snapshot. intros Ha.
  unfold seed_feed, fetch, feedparser_parse, bind. by rewrite Ha.
Qed.

Lemma seed_feed_no_status s feed data :
  snapshot env s feed = Parsed data →
  status data = None →
  seed_feed env feed s = (Raise AttributeError, fetched s feed).
Proof.
  unfold snapshot. intros Ha Hs.
  unfold seed_feed, fetch, feedparser_parse, bind, get_status.
  by rewrite Ha, Hs.
Qed.

(** Runs [seed_feed] up to the test of line 83, on a snapshot known by
    [Ha] whose status is known by [Hs]. *)
Local Ltac seed_with Ha Hs :=
  unfold seed_feed, fetch, feedparser_parse, bind at 1; rewrite Ha;
  unfold bind at 1, get_status; rewrite Hs; simpl.

Lemma seed_feed_kept s feed data :
  snapshot env s feed = Parsed data →
  status data = Some 200 →
  seed_feed env feed s =
    (Ret tt,
     mk_state (feeds s)
       (<[feed := seed_date env data]> (last_saved_dates s))
       (EvSleep REQUESTS_INTERVAL :: EvFetch (AWS_RSS_URL feed) :: history s)).
Proof.
  unfold snapshot, seed_date. intros Ha Hs.
  seed_with Ha Hs.
  unfold last_pub_date.
  by destruct (entries data).
Qed.

Lemma seed_feed_dropped s feed data code r :
  snapshot env s feed = Parsed data →
  status data = Some code →
  code ≠ 200 →
  remove_first feed (feeds s) = Some r →
  seed_feed env feed s =
    (Ret tt,
     mk_state r (last_saved_dates s)
       (ignoring feed :: EvFetch (AWS_RSS_URL feed) :: history s)).
Proof.
  unfold snapshot. intros Ha Hs Hc Hr.
  seed_with Ha Hs.
  rewrite decide_True by done.
  unfold bind, logging_log, feeds_remove. simpl. by rewrite Hr.
Qed.

Lemma seed_feed_absent s feed data code :
  snapshot env s feed = Parsed data →
  status data = Some code →
  code ≠ 200 →
  remove_first feed (feeds s) = None →
  seed_feed env feed s =
    (Raise ValueError,
     mk_state (feeds s) (last_saved_dates s)
       (ignoring feed :: EvFetch (AWS_RSS_URL feed) :: history s)).
Proof.
  unfold snapshot. intros Ha Hs Hc Hr.
  seed_with Ha Hs.
  rewrite decide_True by done.
  unfold bind, logging_log, feeds_remove. simpl. by rewrite Hr.
Qed.

Lemma seed_feed_visit s feed : seed_visit env s feed (seed_feed env feed s).
Proof.
  destruct (snapshot env s feed) as [data |] eqn:Ha.
  2: { rewrite seed_feed_refused by done. by constructor. }
  destruct (status data) as [code |] eqn:Hs.
  2: { erewrite seed_feed_no_status by done. by econstructor. }
  destruct (decide (code = 200)) as [-> | Hc].
  { erewrite seed_feed_kept by done. by econstructor. }
  destruct (remove_first feed (feeds s)) as [r |] eqn:Hr.
  - erewrite seed_feed_dropped by done. by econstructor.
  - erewrite seed_feed_absent by done. by econstructor.
Qed.

Lemma seed_inv_head feed rest s : seed_inv (feed :: rest) s → feed ∈ feeds s.
Proof.
  intros Hinv. destruct (Hinv feed) as [Hle _]. simpl in Hle.
  rewrite decide_True in Hle by done.
  apply occurrences_pos. lia.
Qed.

Lemma seed_feed_inv feed rest s :
  seed_inv (feed :: rest) s →
  outcome (seed_inv rest) (seed_exn env) (seed_feed env feed s).
Proof.
  intros Hinv. pose proof (seed_inv_head feed rest s Hinv) as Hin.
  assert (feeds s ≠ []) as Hne by (intros Hnil; rewrite Hnil in Hin; by apply elem_of_nil in Hin).
  destruct (seed_feed_visit s feed)
    as [Ha | data Ha Hs | data Ha Hs | data code r Ha Hs Hc Hr | data code Ha Hs Hc Hr];
    simpl.
  - split; [| done]. left. split; [done |]. by eexists _, _.
  - split; [| done]. right. split; [done |]. by eexists _, _, _.
  - intros f. destruct (Hinv f) as [Hle Hdom]. simpl in *.
    rewrite dom_insert_L, elem_of_union, elem_of_singleton.
    destruct (decide (feed = f)) as [-> | Hnf].
    + split; [lia |]. split; [lia | by left].
    + split; [lia |]. rewrite Hdom. split; [intros [? | ?]; [congruence | done] | by right].
  - intros f. destruct (Hinv f) as [Hle Hdom]. simpl in *.
    rewrite (remove_first_occurrences feed _ r f Hr) in Hle, Hdom.
    rewrite Hdom.
    destruct (decide (feed = f)); simpl in *; split; lia.
  - apply remove_first_is_Some in Hin as [r Hr']. congruence.
Qed.

Lemma seed_loop_inv todo s :
  seed_inv todo s →
  outcome (seed_inv []) (seed_exn env) (for_each todo (seed_feed env) s).
Proof.
  revert s. apply (for_each_outcome (seed_feed env) seed_inv (seed_exn env)).
  intros x rest s. apply seed_feed_inv.
Qed.

Lemma seed_inv_done s : seed_inv [] s → keys_match s.
Proof.
  intros Hinv. apply set_eq. intros f. destruct (Hinv f) as [_ Hdom].
  simpl in Hdom. by rewrite Hdom, occurrences_pos, elem_of_list_to_set.
Qed.

Lemma seed_inv_initial s0 : seed_inv (feeds s0) (mk_state (feeds s0) ∅ (history s0)).
Proof.
  intros f. simpl. split; [done |]. rewrite dom_empty_L.
  split; [by intros ?%elem_of_empty | lia].
Qed.

(** Seeding ends normally with the keys of the map matching the list,
    or with the exception of a request it could not use. *)
Lemma seed_outcome s : outcome keys_match (seed_exn env) (seed env s).
Proof.
  unfold seed, bind at 1, bind at 1. simpl.
  eapply outcome_weaken; [apply seed_loop_inv | apply seed_inv_done | done].
  apply seed_inv_initial.
Qed.

Lemma keys_match_registered s : keys_match s → registered s.
Proof.
  intros Hk f Hin. apply elem_of_dom. rewrite Hk. by apply elem_of_list_to_set.
Qed.

End Seeding.

(** ** The whole of [check_loop] *)

Section CheckLoop.

Variable env : environment.
Variables slack_webhook slack_channel : string.

Lemma steady_inv_trans a b c : steady_inv a b → steady_inv b c → steady_inv a c.
Proof.
  intros [Hw1 Hg1] [Hw2 (later & Hh & Hall)]. split; [by etrans |].
  rewrite (wr_feeds _ _ Hw1) in Hall. by eapply grows_from_step.
Qed.

Lemma steady_inv_log s0 s lvl fmt args :
  steady_inv s0 s →
  steady_inv s0 (mk_state (feeds s) (last_saved_dates s)
                   (EvLog lvl fmt args :: history s)).
Proof.
  intros [Hw Hg]. split.
  - etrans; [exact Hw |]. by apply watch_rel_same.
  - eapply (grows_from_step _ _ _ _ [_]); [done | done |]. by repeat constructor.
Qed.

Lemma announce_feed_outcome s0 s feed :
  registered s0 → steady_inv s0 s → feed ∈ feeds s0 →
  outcome (steady_inv s0) no_exn (announce_feed feed s).
Proof.
  intros Hr Hinv Hin.
  assert (is_Some (last_saved_dates s !! feed)) as [d Hd].
  { eapply registered_watch_rel; [done | apply Hinv |].
    by rewrite (wr_feeds _ _ (proj1 Hinv)). }
  unfold announce_feed, bind, dates_get. rewrite Hd. simpl.
  by apply steady_inv_log.
Qed.

Lemma announce_outcome s0 s :
  registered s0 → steady_inv s0 s →
  outcome (steady_inv s0) no_exn (for_each (feeds s0) announce_feed s).
Proof.
  intros Hr Hinv.
  eapply outcome_weaken;
    [apply (for_each_outcome announce_feed
              (λ todo s1, steady_inv s0 s1 ∧ todo ⊆ feeds s0) no_exn) | |].
  - intros x rest s1 [H1 Hsub].
    eapply outcome_weaken; [apply announce_feed_outcome; try done | |]; simpl.
    + apply Hsub. by left.
    + intros s2 H2. split; [done |]. intros y Hy. apply Hsub. by right.
    + done.
  - done.
  - by intros s1 [H1 _].
  - done.
Qed.

Lemma check_loop_outcome n s0 :
  outcome (running env s0) (stopped env s0)
          (check_loop env n slack_webhook slack_channel s0).
Proof.
  unfold running, stopped, seeded.
  pose proof (seed_outcome env s0) as Hseed.
  unfold check_loop. unfold bind at 1.
  destruct (seed env s0) as [[[] | e] s1]; simpl in *; [| by left].
  pose proof (keys_match_registered s1 Hseed) as Hr.
  unfold bind at 1, abort_if_empty, bind at 1, get_feeds.
  destruct (feeds s1) as [| f fs] eqn:Hfs; simpl.
  { right. by left. }
  unfold bind at 1. simpl. unfold bind at 1. simpl.
  set (s2 := mk_state _ _ _).
  assert (steady_inv s1 s2) as H2 by (apply steady_inv_log, steady_inv_refl).
  eapply outcome_bind.
  - replace (feeds s2) with (feeds s1) by done.
    eapply outcome_weaken;
      [by apply announce_outcome | intros s3 H3; exact H3 | by intros e s3 []].
  - intros _ s3 H3.
    eapply outcome_weaken; [apply steady_outcome | |]; simpl.
    + eapply registered_watch_rel; [done | apply H3].
    + intros s4 H4. split; [done |]. split; [done |]. by eapply steady_inv_trans.
    + intros e s4 (He & H4). right. right.
      split; [done |]. split; [done |]. split; [done |].
      by eapply steady_inv_trans.
Qed.

Lemma seeded_keys_match s0 :
  (seed env s0).1 = Ret tt → keys_match (seeded env s0).
Proof.
  unfold seeded. pose proof (seed_outcome env s0) as Hseed.
  by destruct (seed env s0) as [[[] | e] s1].
Qed.

(** Seeding ends normally when every request comes back with a
    status. *)
Lemma seed_returns s0 : answers_with_status env → (seed env s0).1 = Ret tt.
Proof.
  intros Hans. pose proof (seed_outcome env s0) as Hseed.
  destruct (seed env s0) as [[[] | e] s1]; simpl in *; [done |].
  destruct Hseed as [[[_ (h & url & _ & Hr)] | [_ (h & url & data & _ & Ha & Hs)]] _];
    destruct (Hans h url) as (data' & code & Ha' & Hs'); congruence.
Qed.

(** A run in which seeding raises ends where seeding ends. *)
Lemma check_loop_seed_raises n s0 e s :
  seed env s0 = (Raise e, s) →
  check_loop env n slack_webhook slack_channel s0 = (Raise e, s).
Proof. intros Hs. unfold check_loop, bind at 1. by rewrite Hs. Qed.

Lemma check_loop_watch_rel n s0 :
  watch_rel (seeded env s0) (check_loop env n slack_webhook slack_channel s0).2.
Proof.
  pose proof (check_loop_outcome n s0) as Hout.
  destruct (check_loop env n slack_webhook slack_channel s0) as [[[] | e] s1];
    simpl in *.
  - by destruct Hout as (_ & _ & [Hw _]).
  - destruct Hout as [[Hs _] | [(_ & _ & _ & ->) | (_ & _ & _ & [Hw _])]]; [| | done].
    + unfold seeded. rewrite Hs. reflexivity.
    + by apply watch_rel_same.
Qed.

Lemma check_loop_grows n s0 :
  grows_from (feeds (seeded env s0)) (seeded env s0)
             (check_loop env n slack_webhook slack_channel s0).2.
Proof.
  pose proof (check_loop_outcome n s0) as Hout.
  destruct (check_loop env n slack_webhook slack_channel s0) as [[[] | e] s1];
    simpl in *.
  - by destruct Hout as (_ & _ & [_ Hg]).
  - destruct Hout as [[Hs _] | [(_ & _ & _ & ->) | (_ & _ & _ & [_ Hg])]]; [| | done].
    + unfold seeded. rewrite Hs. apply grows_from_refl.
    + exists [no_valid_feeds]. split; [done |]. by repeat constructor.
Qed.

End CheckLoop.

(** ** Seeding a list of distinct candidates *)

Section SeedingDistinct.

Variable env : environment.

Lemma fetch_log_app h1 h2 : fetch_log (h1 ++ h2) = fetch_log h1 ++ fetch_log h2.
Proof.
  induction h1 as [| e h1 IH]; simpl; [done |].
  destruct e; simpl; by rewrite IH.
Qed.

Lemma occurrences_app x l1 l2 :
  occurrences x (l1 ++ l2) = (occurrences x l1 + occurrences x l2)%nat.
Proof.
  induction l1 as [| y l1 IH]; simpl; [done |].
  case_decide; simpl; by rewrite IH.
Qed.

Lemma occurrences_rev x l : occurrences x (rev l) = occurrences x l.
Proof.
  induction l as [| y l IH]; simpl; [done |].
  rewrite occurrences_app, IH. simpl. case_decide; lia.
Qed.

Lemma occurrences_zero x l : x ∉ l → occurrences x l = O.
Proof.
  intros Hx. destruct (decide (0 < occurrences x l)%nat) as [Hpos | Hz]; [| lia].
  by apply occurrences_pos in Hpos.
Qed.

Lemma occurrences_one x l : NoDup l → x ∈ l → occurrences x l = 1%nat.
Proof.
  intros Hnd Hin. apply occurrences_pos in Hin.
  pose proof (occurrences_nodup x l Hnd). lia.
Qed.

Lemma occurrences_map (f : string → string) c l :
  Inj (=) (=) f → occurrences (f c) (map f l) = occurrences c l.
Proof.
  intros Hf. induction l as [| y l IH]; simpl; [done |].
  destruct (decide (y = c)) as [-> | Hne].
  - by rewrite decide_True, IH.
  - rewrite decide_False; [done |]. by intros ?%Hf.
Qed.

Lemma occurrences_url c l :
  occurrences (AWS_RSS_URL c) (map AWS_RSS_URL l) = occurrences c l.
Proof. apply occurrences_map. intros f1 f2. apply AWS_RSS_URL_inj. Qed.

Lemma requests_for_watched F c later :
  c ∉ F → Forall (watched_event F) later → requests_for c later = O.
Proof.
  intros Hc Hall. unfold requests_for.
  induction Hall as [| e later He Hall IH]; simpl; [done |].
  destruct e as [u | | |]; simpl; try done.
  destruct He as (f & Hf & ->). rewrite decide_False; [done |].
  intros ->%AWS_RSS_URL_inj. done.
Qed.

(** The candidates not yet visited are untouched. *)
Lemma seed_feed_frame s feed c :
  c ≠ feed →
  let s' := (seed_feed env feed s).2 in
  last_saved_dates s' !! c = last_saved_dates s !! c
  ∧ (c ∈ feeds s' ↔ c ∈ feeds s).
Proof.
  intros Hne.
  destruct (seed_feed_visit env s feed)
    as [Ha | data Ha Hs | data Ha Hs | data code r Ha Hs Hc Hr | data code Ha Hs Hc Hr];
    simpl; try done.
  - by rewrite lookup_insert_ne.
  - split; [done |]. by apply (remove_first_elem feed).
Qed.

Lemma seed_feed_nodup s feed :
  NoDup (feeds s) → NoDup (feeds (seed_feed env feed s).2).
Proof.
  intros Hnd.
  destruct (seed_feed_visit env s feed)
    as [Ha | data Ha Hs | data Ha Hs | data code r Ha Hs Hc Hr | data code Ha Hs Hc Hr];
    simpl; try done.
  by apply (remove_first_nodup feed (feeds s)).
Qed.

Lemma seed_loop_frame todo s c :
  c ∉ todo →
  let s' := (for_each todo (seed_feed env) s).2 in
  last_saved_dates s' !! c = last_saved_dates s !! c
  ∧ (c ∈ feeds s' ↔ c ∈ feeds s).
Proof.
  revert s. induction todo as [| x todo IH]; intros s Hc; simpl; [done |].
  apply not_elem_of_cons in Hc as [Hne Hc].
  pose proof (seed_feed_frame s x c Hne) as [Hd Hf]. simpl in *.
  unfold bind. destruct (seed_feed env x s) as [[[] | e] s1]; simpl in *; [| done].
  destruct (IH s1 Hc) as [Hd' Hf']. split; [congruence | by rewrite Hf', Hf].
Qed.

Lemma seeding_verdict_later s s' c new :
  seeding_verdict env s c →
  history s' = new ++ history s →
  (c ∈ feeds s' ↔ c ∈ feeds s) →
  last_saved_dates s' !! c = last_saved_dates s !! c →
  seeding_verdict env s' c.
Proof.
  intros (h & later & data & code & Hh & Ha & Hs & Hbad & Hok) Hnew Hf Hd.
  exists h, (new ++ later), data, code.
  split; [by rewrite Hnew, Hh, app_assoc |].
  split; [done |]. split; [done |]. rewrite Hf, Hd. split.
  - intros Hc. destruct (Hbad Hc) as (? & ? & Hlog). split_and!; [done.. |].
    apply elem_of_app. by right.
  - done.
Qed.

(** The seeding loop over distinct candidates: the candidates are
    requested in order, once each, up to the first one whose request
    cannot be used; every candidate before that one has its verdict. *)
Lemma seed_loop_distinct todo s :
  NoDup todo → NoDup (feeds s) → todo ⊆ feeds s →
  (∀ c, c ∈ todo → last_saved_dates s !! c = None) →
  let rs := for_each todo (seed_feed env) s in
  ∃ visited rest new,
    todo = visited ++ rest
    ∧ history rs.2 = new ++ history s
    ∧ fetch_log new = rev (map AWS_RSS_URL visited)
    ∧ (rs.1 = Ret tt →
         rest = [] ∧ ∀ c, c ∈ visited → seeding_verdict env rs.2 c)
    ∧ (∀ e, rs.1 = Raise e →
         ∃ settled c,
           visited = settled ++ [c]
           ∧ (∀ c', c' ∈ settled → seeding_verdict env rs.2 c')
           ∧ c ∈ feeds rs.2
           ∧ last_saved_dates rs.2 !! c = None
           ∧ seeding_failure env e rs.2 c).
Proof.
  revert s. induction todo as [| x todo IH]; intros s Hnd Hfs Hsub Hnone; simpl.
  { exists [], [], []. split_and!; try done.
    intros _. split; [done |]. by intros c ?%elem_of_nil. }
  apply NoDup_cons in Hnd as [Hx Hnd].
  assert (x ∈ feeds s) as Hin by (apply Hsub; by left).
  assert (last_saved_dates s !! x = None) as Hxnone by (apply Hnone; by left).
  pose proof (seed_feed_nodup s x Hfs) as Hfs1.
  pose proof (λ c Hc, seed_feed_frame s x c Hc) as Hframe.
  pose proof (seed_loop_frame todo (seed_feed env x s).2 x Hx) as Hrest.
  unfold bind.
  destruct (seed_feed_visit env s x)
    as [Ha | data Ha Hs | data Ha Hs | data code r Ha Hs Hcode Hr
        | data code Ha Hs Hcode Hr];
    cbn [fst snd] in *.
  - (* the parser refuses the URL *)
    exists [x], todo, [EvFetch (AWS_RSS_URL x)]. split_and!; try done.
    intros e [= <-]. exists [], x. split_and!; try done.
    + by intros c ?%elem_of_nil.
    + exists (history s). split; [done |]. by left.
  - (* no status *)
    exists [x], todo, [EvFetch (AWS_RSS_URL x)]. split_and!; try done.
    intros e [= <-]. exists [], x. split_and!; try done.
    + by intros c ?%elem_of_nil.
    + exists (history s). split; [done |]. right. split; [done |]. by exists data.
  - (* kept *)
    match goal with |- context [for_each todo _ ?s1] => set (s1' := s1) in * end.
    assert (seeding_verdict env s1' x) as Hver.
    { exists (history s), [EvSleep REQUESTS_INTERVAL], data, 200.
      split_and!; try done. intros _. simpl. by rewrite lookup_insert_eq. }
    destruct (IH s1' Hnd Hfs1) as (visited & rest & new & -> & Hnew & Hlog & Hok & Hbad).
    { intros c Hc. apply (Hframe c); [by intros -> | apply Hsub; by right]. }
    { intros c Hc. rewrite (proj1 (Hframe c ltac:(by intros ->))).
      apply Hnone. by right. }
    destruct Hrest as [Hd Hf].
    exists (x :: visited), rest,
      (new ++ [EvSleep REQUESTS_INTERVAL; EvFetch (AWS_RSS_URL x)]).
    split; [done |]. split; [by rewrite Hnew, <- app_assoc |].
    split; [by rewrite fetch_log_app, Hlog |]. split.
    + intros Hret. destruct (Hok Hret) as [-> Hall]. split; [done |].
      intros c [-> | Hc]%elem_of_cons; [| by apply Hall].
      by eapply seeding_verdict_later.
    + intros e He. destruct (Hbad e He) as (settled & c & -> & Hall & Hcf & Hcd & Hfail).
      exists (x :: settled), c. split_and!; try done.
      intros c' [-> | Hc']%elem_of_cons; [| by apply Hall].
      by eapply seeding_verdict_later.
  - (* dropped *)
    match goal with |- context [for_each todo _ ?s1] => set (s1' := s1) in * end.
    assert (seeding_verdict env s1' x) as Hver.
    { exists (history s), [ignoring x], data, code.
      split_and!; try done. intros _. simpl.
      split_and!; [| done | by left].
      by apply (remove_first_nodup x (feeds s)). }
    destruct (IH s1' Hnd Hfs1) as (visited & rest & new & -> & Hnew & Hlog & Hok & Hbad).
    { intros c Hc. apply (Hframe c); [by intros -> | apply Hsub; by right]. }
    { intros c Hc. rewrite (proj1 (Hframe c ltac:(by intros ->))).
      apply Hnone. by right. }
    destruct Hrest as [Hd Hf].
    exists (x :: visited), rest, (new ++ [ignoring x; EvFetch (AWS_RSS_URL x)]).
    split; [done |]. split; [by rewrite Hnew, <- app_assoc |].
    split; [by rewrite fetch_log_app, Hlog |]. split.
    + intros Hret. destruct (Hok Hret) as [-> Hall]. split; [done |].
      intros c [-> | Hc]%elem_of_cons; [| by apply Hall].
      by eapply seeding_verdict_later.
    + intros e He. destruct (Hbad e He) as (settled & c & -> & Hall & Hcf & Hcd & Hfail).
      exists (x :: settled), c. split_and!; try done.
      intros c' [-> | Hc']%elem_of_cons; [| by apply Hall].
      by eapply seeding_verdict_later.
  - apply remove_first_is_Some in Hin as [r Hr']. congruence.
Qed.

End SeedingDistinct.


(** * The claims *)

(** ** Severity classification *)

Lemma classified_fun t sev sev' : classified t sev → classified t sev' → sev = sev'.
Proof. by destruct 1; destruct 1. Qed.

Lemma message_color_classified item :
  ∃ sev, classified (title item) sev ∧ message_color item = severity_color sev.
Proof.
  unfold message_color.
  destruct (str_in "Service is operating normally:" (title item)) eqn:H1.
  { exists InformationalResolved. split; [| done].
    constructor. by apply str_in_spec. }
  assert (¬ contains (title item) "Service is operating normally:") as Hn1.
  { intros Hc%str_in_spec. congruence. }
  destruct (str_in "Informational message:" (title item)) eqn:H2.
  { exists Informational. split; [| done].
    constructor; [done |]. by apply str_in_spec. }
  exists Alert. split; [| done].
  constructor; [done |]. intros Hc%str_in_spec. congruence.
Qed.

(** C3. The colour of the attachment that [send_to_slack] posts is the
    colour of the severity that the first-match rule gives the title of
    the entry: [good] when the title contains "Service is operating
    normally:", else [warning] when it contains "Informational message:",
    else [danger]; the rule gives every title exactly one severity. *)
Theorem severity_first_match env item slack_webhook slack_channel s :
  ∃ sev,
    classified (title item) sev
    ∧ (∀ sev', classified (title item) sev' → sev' = sev)
    ∧ post_log (history (send_to_slack env item slack_webhook slack_channel s).2)
      = (slack_webhook,
         mk_Payload "aws" "https://dl.dropboxusercontent.com/u/62469907/aws-icon.png"
           slack_channel
           [mk_Attachment (severity_color sev) (title item) (link item) (summary item)])
        :: post_log (history s).
Proof.
  destruct (message_color_classified item) as (sev & Hc & Hcol).
  exists sev. split; [done |]. split.
  { intros sev' Hc'. by eapply classified_fun. }
  unfold send_to_slack, bind, requests_post, slack_payload. rewrite Hcol.
  by destruct (slack_server env (history s) slack_webhook _).
Qed.

Example color_of_resolved : message_color Samples.resolved = "good".
Proof. reflexivity. Qed.

Example color_of_incident : message_color Samples.incident = "warning".
Proof. reflexivity. Qed.

Example color_of_other :
  message_color (mk_Entry "Increased API error rates" "" "" Samples.T0) = "danger".
Proof. reflexivity. Qed.

Example color_first_match :
  message_color
    (mk_Entry "Informational message: Service is operating normally: ok" "" "" Samples.T0)
  = "good".
Proof. reflexivity. Qed.

(** The scenario of the specification: the feed shows an entry of date
    [D0] while seeding and in the first round, and a newer entry titled
    "Service is operating normally: Resolved" from the second round on.
    Three rounds post one notification, coloured [good], and leave [D1]
    stored. *)
Example end_to_end :
  let run := check_loop Samples.env_up 3 "hook" "#aws" (initial_state ["ec2"]) in
  run.1 = Ret tt
  ∧ post_log (history run.2) = [("hook", slack_payload Samples.resolved "#aws")]
  ∧ message_color Samples.resolved = "good"
  ∧ last_saved_dates run.2 !! "ec2" = Some Samples.D1.
Proof. vm_compute. by split_and!. Qed.

(** ** A feed without entries *)

(** C6. When the snapshot fetched for a feed has no entries, the visit
    ends normally right after the request: the list of feeds and the
    stored dates are what they were, nothing is posted, and the pass goes
    on with the next feed. *)
Theorem empty_snapshot_skipped env slack_webhook slack_channel s feed data rest :
  snapshot env s feed = Parsed data →
  entries data = [] →
  let rs := check_feed env slack_webhook slack_channel feed s in
  rs.1 = Ret tt
  ∧ feeds rs.2 = feeds s
  ∧ last_saved_dates rs.2 = last_saved_dates s
  ∧ history rs.2 = EvFetch (AWS_RSS_URL feed) :: history s
  ∧ post_log (history rs.2) = post_log (history s)
  ∧ for_each (feed :: rest) (check_feed env slack_webhook slack_channel) s
    = for_each rest (check_feed env slack_webhook slack_channel) rs.2.
Proof.
  intros Ha He. simpl. unfold bind.
  by rewrite (check_feed_empty env slack_webhook slack_channel s feed data Ha He).
Qed.

Lemma empty_snapshot_skipped_witness :
  let s := mk_state ["ec2"; "s3"] {[ "ec2" := Samples.D0; "s3" := Samples.D0 ]}
             Samples.two_requests in
  last_saved_dates (check_feed Samples.env_quiet "hook" "#aws" "ec2" s).2
  = last_saved_dates s.
Proof.
  intros s.
  exact (proj1 (proj2 (proj2
    (empty_snapshot_skipped Samples.env_quiet "hook" "#aws" s "ec2"
       (mk_FeedParserDict (Some 200) []) ["s3"] eq_refl eq_refl)))).
Defined.

(** ** Change detection *)

(** C1 as it stands fails when the POST raises: the notification is
    attempted once, but the stored date is not advanced. *)
Lemma newer_entry_not_stored_when_post_raises :
  let s := Samples.watching_ec2 Samples.two_requests in
  let rs := check_feed Samples.env_down "hook" "#aws" "ec2" s in
  snapshot Samples.env_down s "ec2"
  = Parsed (mk_FeedParserDict (Some 200) [Samples.resolved; Samples.incident])
  ∧ last_saved_dates s !! "ec2" = Some Samples.D0
  ∧ dt_lt Samples.D0 (datetime_of_tuple6 (published_parsed Samples.resolved))
  ∧ rs.1 = Raise ConnectionError
  ∧ last_saved_dates rs.2 !! "ec2" = Some Samples.D0
  ∧ last_saved_dates rs.2 !! "ec2"
    ≠ Some (datetime_of_tuple6 (published_parsed Samples.resolved)).
Proof. vm_compute. split_and!; try reflexivity. discriminate. Qed.

(** C1, amended.  For a feed with a stored date whose snapshot has
    entries, the newest entry's date is compared with the stored one by
    [>].  If it equals or precedes the stored date, the visit ends
    normally with the dates unchanged and nothing posted.  If it is
    strictly later, exactly one notification is posted, and when that POST
    returns a response the stored date becomes the date of the newest
    entry; when the POST raises, the exception ends the visit and the
    stored date stays. *)
Theorem change_detection env slack_webhook slack_channel s feed data item rest saved :
  snapshot env s feed = Parsed data →
  entries data = item :: rest →
  last_saved_dates s !! feed = Some saved →
  let newest := datetime_of_tuple6 (published_parsed item) in
  let answer := slack_server env (EvFetch (AWS_RSS_URL feed) :: history s)
                  slack_webhook (slack_payload item slack_channel) in
  let rs := check_feed env slack_webhook slack_channel feed s in
  (dt_le newest saved ∨ dt_lt saved newest)
  ∧ (dt_le newest saved →
     rs.1 = Ret tt
     ∧ last_saved_dates rs.2 = last_saved_dates s
     ∧ post_log (history rs.2) = post_log (history s))
  ∧ (dt_lt saved newest →
     post_log (history rs.2)
     = (slack_webhook, slack_payload item slack_channel) :: post_log (history s)
     ∧ (∀ code, answer = Response code →
          rs.1 = Ret tt
          ∧ last_saved_dates rs.2 = <[feed := newest]> (last_saved_dates s))
     ∧ (answer = Unreachable →
          rs.1 = Raise ConnectionError
          ∧ last_saved_dates rs.2 = last_saved_dates s)).
Proof.
  intros Ha He Hk newest answer rs. subst newest answer rs. split_and!.
  - destruct (datetime_gt (datetime_of_tuple6 (published_parsed item)) saved) eqn:Hgt.
    + right. by apply datetime_gt_true.
    + left. by apply datetime_gt_false.
  - intros Hle%datetime_gt_false.
    by rewrite (check_feed_old env slack_webhook slack_channel s feed data item rest saved).
  - intros Hlt%datetime_gt_true.
    destruct (slack_server env (EvFetch (AWS_RSS_URL feed) :: history s)
                slack_webhook (slack_payload item slack_channel)) as [code |] eqn:Hp.
    + rewrite (check_feed_new env slack_webhook slack_channel s feed data item rest
                 saved code) by done.
      simpl. split; [done |]. split; [done | discriminate].
    + rewrite (check_feed_unreachable env slack_webhook slack_channel s feed data item
                 rest saved) by done.
      simpl. split; [done |]. split; [discriminate | done].
Qed.

Lemma change_detection_witness :
  let s := Samples.watching_ec2 Samples.two_requests in
  last_saved_dates (check_feed Samples.env_up "hook" "#aws" "ec2" s).2
  = <["ec2" := Samples.D1]> (last_saved_dates s).
Proof.
  intros s.
  pose proof (change_detection Samples.env_up "hook" "#aws" s "ec2"
                (mk_FeedParserDict (Some 200) [Samples.resolved; Samples.incident])
                Samples.resolved [Samples.incident] Samples.D0
                eq_refl eq_refl eq_refl)
    as (_ & _ & Hnew).
  destruct (Hnew eq_refl) as (_ & Hup & _).
  exact (proj2 (Hup 200 eq_refl)).
Defined.

(** ** Dispatch failures *)


(** *** How an exception leaves the loops *)

Lemma for_each_raises {A} (body : A → M unit) x rest s e s' :
  body x s = (Raise e, s') → for_each (x :: rest) body s = (Raise e, s').
Proof. intros H. simpl. unfold bind. by rewrite H. Qed.









(** ** Invariants of the watch state *)

(** C8. A date stored for a feed never moves backwards: one visit of a
    feed leaves each stored date as it is or replaces it by a strictly
    later one; after any number of rounds of the steady state, and at any
    point of a run of [check_loop] after seeding, the feed still has a
    stored date, and it is the earlier one or a later one. *)
Theorem last_seen_monotone env slack_webhook slack_channel s g d :
  last_saved_dates s !! g = Some d →
  (∀ feed,
     let s' := (check_feed env slack_webhook slack_channel feed s).2 in
     last_saved_dates s' !! g = Some d
     ∨ ∃ d', last_saved_dates s' !! g = Some d' ∧ dt_lt d d')
  ∧ (∀ n,
     let s' := (steady env n slack_webhook slack_channel s).2 in
     ∃ d', last_saved_dates s' !! g = Some d' ∧ dt_le d d')
  ∧ (∀ n s0, s = seeded env s0 →
     let s' := (check_loop env n slack_webhook slack_channel s0).2 in
     ∃ d', last_saved_dates s' !! g = Some d' ∧ dt_le d d').
Proof.
  intros Hg. split_and!.
  - intros feed. by apply check_feed_date_step.
  - intros n. by apply (wr_dates _ _ (steady_watch_rel env _ _ n s)).
  - intros n s0 -> . by apply (wr_dates _ _ (check_loop_watch_rel env _ _ n s0)).
Qed.

Lemma last_seen_monotone_witness :
  let s := Samples.watching_ec2 Samples.two_requests in
  ∃ d', last_saved_dates (steady Samples.env_up 2 "hook" "#aws" s).2 !! "ec2" = Some d'
        ∧ dt_le Samples.D0 d'.
Proof.
  intros s.
  exact (proj1 (proj2
    (last_seen_monotone Samples.env_up "hook" "#aws" s "ec2" Samples.D0 eq_refl)) 2%nat).
Defined.

(** The exceptions with which a run of [check_loop] can end. *)
Lemma check_loop_exn env slack_webhook slack_channel n s0 e :
  (check_loop env n slack_webhook slack_channel s0).1 = Raise e →
  e = SystemExit 1 ∨ e = ConnectionError ∨ e = AttributeError ∨ e = InvalidURL.
Proof.
  pose proof (check_loop_outcome env slack_webhook slack_channel n s0) as Hout.
  destruct (check_loop env n slack_webhook slack_channel s0) as [[[] | e'] s1];
    simpl in *; [done |].
  intros [= ->].
  destruct Hout as [[_ [[[-> _] | [-> _]] _]]
                   | [(_ & -> & _) | (_ & _ & [[-> _] | [-> _]] & _)]]; auto.
Qed.

(** C9. Seeding ends normally when every request comes back with a
    status, and whenever it ends normally it leaves a map whose keys are
    exactly the names in the list of feeds; the steady state changes
    neither the list nor the set of keys; and no run of [check_loop] ends
    with a [KeyError]. *)
Theorem keys_are_the_watched_feeds env slack_webhook slack_channel s0 :
  (answers_with_status env → (seed env s0).1 = Ret tt)
  ∧ ((seed env s0).1 = Ret tt →
     dom (last_saved_dates (seeded env s0)) = list_to_set (feeds (seeded env s0)))
  ∧ (∀ n s,
       feeds (steady env n slack_webhook slack_channel s).2 = feeds s
       ∧ dom (last_saved_dates (steady env n slack_webhook slack_channel s).2)
         = dom (last_saved_dates s))
  ∧ (∀ n,
       feeds (check_loop env n slack_webhook slack_channel s0).2 = feeds (seeded env s0)
       ∧ dom (last_saved_dates (check_loop env n slack_webhook slack_channel s0).2)
         = dom (last_saved_dates (seeded env s0))
       ∧ (check_loop env n slack_webhook slack_channel s0).1 ≠ Raise KeyError).
Proof.
  split_and!.
  - apply seed_returns.
  - apply seeded_keys_match.
  - intros n s. destruct (steady_watch_rel env slack_webhook slack_channel n s).
    by split.
  - intros n.
    destruct (check_loop_watch_rel env slack_webhook slack_channel n s0) as [Hf Hk _].
    split_and!; [done.. |].
    intros He.
    destruct (check_loop_exn env slack_webhook slack_channel n s0 _ He)
      as [? | [? | [? | ?]]]; discriminate.
Qed.

(** ** The guard on [entries[0]] *)

(** C10. [last_pub_date] reads [entries[0]] whatever its argument: it
    raises [IndexError] on a snapshot without entries and returns the date
    of the first entry otherwise.  Seeding a feed, visiting a feed and a
    whole run of [check_loop] never end with an [IndexError]: both call
    sites sit behind the test that the entry list is not empty. *)
Theorem last_pub_date_guarded env :
  (∀ data s,
     last_pub_date data s
     = match entries data with
       | [] => (Raise IndexError, s)
       | e :: _ => (Ret (datetime_of_tuple6 (published_parsed e)), s)
       end)
  ∧ (∀ feed s, (seed_feed env feed s).1 ≠ Raise IndexError)
  ∧ (∀ slack_webhook slack_channel feed s,
       (check_feed env slack_webhook slack_channel feed s).1 ≠ Raise IndexError)
  ∧ (∀ slack_webhook slack_channel n s0,
       (check_loop env n slack_webhook slack_channel s0).1 ≠ Raise IndexError).
Proof.
  split_and!.
  - intros data s. unfold last_pub_date, bind. by destruct (entries data).
  - intros feed s. by destruct (seed_feed_visit env s feed).
  - intros wh ch feed s. by destruct (check_feed_visit env wh ch s feed).
  - intros wh ch n s0 He.
    destruct (check_loop_exn env wh ch n s0 _ He) as [? | [? | [? | ?]]];
      discriminate.
Qed.

(** ** Leaving the program *)

(** C4 as it stands fails in its last part: with a feed left to watch
    and a webhook that cannot be reached, the program leaves with status
    1 as well. *)
Lemma nonzero_exit_with_a_feed_left :
  let s0 := initial_state ["ec2"] in
  feeds (seeded Samples.env_down s0) = ["ec2"]
  ∧ (check_loop Samples.env_down 3 "hook" "#aws" s0).1 = Raise ConnectionError
  ∧ exit_status (check_loop Samples.env_down 3 "hook" "#aws" s0).1 = Some 1.
Proof. vm_compute. by split_and!. Qed.

(** C4, amended.  If seeding leaves no feed, it has ended normally, and
    [check_loop] logs the error that names the URL of the "all" feed and
    leaves through [sys.exit(1)]: whatever the number of rounds asked for,
    the run ends there, with status 1 and no request after seeding.  This
    is the only way in which a run leaves through [sys.exit], and every
    status a run leaves with is 1: an exception that nothing catches ends
    the program with that status as well. *)
Theorem exit_conditions env slack_webhook slack_channel n s0 :
  let run := check_loop env n slack_webhook slack_channel s0 in
  (feeds (seeded env s0) = [] →
     (seed env s0).1 = Ret tt
     ∧ run.1 = Raise (SystemExit 1)
     ∧ exit_status run.1 = Some 1
     ∧ feeds run.2 = []
     ∧ last_saved_dates run.2 = last_saved_dates (seeded env s0)
     ∧ history run.2
       = EvLog ERROR "No valid feeds left. TIP: Do not specify feeds to watch %s."
                     [AStr "http://status.aws.amazon.com/rss/all.rss"]
         :: history (seeded env s0))
  ∧ (∀ c, run.1 = Raise (SystemExit c) →
       c = 1 ∧ (seed env s0).1 = Ret tt ∧ feeds (seeded env s0) = [])
  ∧ (∀ c, exit_status run.1 = Some c → c = 1).
Proof.
  intros run. subst run.
  pose proof (check_loop_outcome env slack_webhook slack_channel n s0) as Hout.
  destruct (check_loop env n slack_webhook slack_channel s0) as [[[] | e] s1];
    simpl in *.
  - destruct Hout as (Hret & Hne & _). by split_and!.
  - destruct Hout as [[Hs [Hexn Hne]]
                     | [(Hret & -> & Hfs & ->) | (Hret & Hne & Hexn & _)]].
    + assert (seeded env s0 = s1) as Hs1 by (unfold seeded; by rewrite Hs).
      rewrite Hs1. split_and!; [done | |].
      * intros c [= ->]. by destruct Hexn as [[? _] | [? _]].
      * intros c. by destruct Hexn as [[-> _] | [-> _]]; intros [= <-].
    + split_and!.
      * intros _. by split_and!.
      * by intros c [= <-].
      * by intros c [= <-].
    + split_and!; [done | |].
      * intros c [= ->]. by destruct Hexn as [[? _] | [? _]].
      * intros c. by destruct Hexn as [[-> _] | [-> _]]; intros [= <-].
Qed.

Lemma exit_conditions_witness :
  (check_loop Samples.env_none 7 "hook" "#aws" (initial_state ["ec2"; "s3"])).1
  = Raise (SystemExit 1).
Proof.
  exact (proj1 (proj2 (proj1
    (exit_conditions Samples.env_none "hook" "#aws" 7 (initial_state ["ec2"; "s3"]))
    eq_refl))).
Defined.

(** ** Seeding the candidates *)

(** C2 as it stands fails twice.  For a name given twice, the second
    request for ["ec2"] is answered with 404, and still the name stays in
    the list with a stored date and is requested again in the steady
    state.  And when the request for a candidate comes back without a
    status, the host being out of reach, the candidate is not excluded and
    no warning names it: seeding ends with the [AttributeError] of line
    83, and the program with status 1. *)
Lemma seeding_exclusions_missed :
  let s0 := initial_state ["ec2"; "ec2"] in
  let url := AWS_RSS_URL "ec2" in
  let s1 := initial_state ["s3"; "ec2"] in
  let first := [EvLog WARNING "Ignoring not existent feed: %s" [AStr (AWS_RSS_URL "s3")];
                EvFetch (AWS_RSS_URL "s3")] in
  (history (seeded Samples.env_flaky s0)
   = [EvLog WARNING "Ignoring not existent feed: %s" [AStr url]; EvFetch url;
      EvSleep 2; EvFetch url]
   ∧ feed_server Samples.env_flaky [EvSleep 2; EvFetch url] url
     = Parsed (mk_FeedParserDict (Some 404) [])
   ∧ feeds (seeded Samples.env_flaky s0) = ["ec2"]
   ∧ last_saved_dates (seeded Samples.env_flaky s0) !! "ec2" = Some Samples.D0
   ∧ fetch_log (history (check_loop Samples.env_flaky 1 "hook" "#aws" s0).2)
     = [url; url; url])
  ∧ (feed_server Samples.env_offline first url = Parsed (mk_FeedParserDict None [])
     ∧ seed Samples.env_offline s1
       = (Raise AttributeError, mk_state ["ec2"] ∅ (EvFetch url :: first))
     ∧ exit_status (check_loop Samples.env_offline 1 "hook" "#aws" s1).1 = Some 1).
Proof. vm_compute. by split_and!. Qed.

(** C2, amended.  For a list of candidates without repetition, seeding
    requests the candidates in the order of the list, once each, up to
    the first one whose request the parser refuses or that comes back
    without a status; there seeding ends with the exception, the candidate
    still in the list and without a stored date.  Every candidate before
    that one, and every candidate when seeding ends normally, was answered
    with a status.  If that status is not 200, the candidate is reported
    with a warning, is absent from the list of feeds and from the stored
    dates, and no run of [check_loop] ever requests it again.  If it is
    200, the candidate stays in the list, with the date of its newest
    entry stored, or [START_TIME] when it has no entry. *)
Theorem seeding_distinct_candidates env cands :
  NoDup cands →
  let run := seed env (initial_state cands) in
  let s' := seeded env (initial_state cands) in
  let settled c :=
    ∃ h later data code,
      history s' = later ++ EvFetch (AWS_RSS_URL c) :: h
      ∧ feed_server env h (AWS_RSS_URL c) = Parsed data
      ∧ status data = Some code
      ∧ (code ≠ 200 →
           (c ∉ feeds s')
           ∧ last_saved_dates s' !! c = None
           ∧ EvLog WARNING "Ignoring not existent feed: %s" [AStr (AWS_RSS_URL c)]
             ∈ later
           ∧ ∀ n slack_webhook slack_channel,
               requests_for c
                 (history (check_loop env n slack_webhook slack_channel
                             (initial_state cands)).2) = 1%nat)
      ∧ (code = 200 →
           c ∈ feeds s'
           ∧ last_saved_dates s' !! c
             = Some (match entries data with
                     | e :: _ => datetime_of_tuple6 (published_parsed e)
                     | [] => START_TIME env
                     end)) in
  ∃ visited rest,
    cands = visited ++ rest
    ∧ fetch_log (history s') = rev (map AWS_RSS_URL visited)
    ∧ (run.1 = Ret tt → rest = [] ∧ ∀ c, c ∈ cands → settled c)
    ∧ (∀ e, run.1 = Raise e →
         ∃ before c h,
           visited = before ++ [c]
           ∧ (∀ c', c' ∈ before → settled c')
           ∧ history s' = EvFetch (AWS_RSS_URL c) :: h
           ∧ ((e = InvalidURL ∧ feed_server env h (AWS_RSS_URL c) = Refused)
              ∨ (e = AttributeError
                 ∧ ∃ data, feed_server env h (AWS_RSS_URL c) = Parsed data
                           ∧ status data = None))
           ∧ c ∈ feeds s'
           ∧ last_saved_dates s' !! c = None).
Proof.
  intros Hnd run s' settled.
  destruct (seed_loop_distinct env cands (initial_state cands) Hnd) as
    (visited & rest & new & Hsplit & Hnew & Hlog & Hok & Hbad); [done | done | done |].
  change (for_each cands (seed_feed env) (initial_state cands))
    with (seed env (initial_state cands)) in *.
  fold run in Hok, Hbad. fold (seeded env (initial_state cands)) in Hnew, Hok, Hbad.
  fold s' in Hnew, Hok, Hbad.
  simpl in Hnew. rewrite app_nil_r in Hnew.
  assert (fetch_log (history s') = rev (map AWS_RSS_URL visited)) as Hfetch
    by (by rewrite Hnew).
  assert (NoDup visited) as Hndv.
  { rewrite Hsplit in Hnd. by apply NoDup_app in Hnd as (? & _ & _). }
  assert (∀ c, c ∈ visited → seeding_verdict env s' c → settled c) as Hsettled.
  { intros c Hc (h & later & data & code & Hh & Ha & Hs & Hno & Hyes).
    exists h, later, data, code. split_and!; [done.. | | done].
    intros Hcode. destruct (Hno Hcode) as (Hout & Hnone & Hlogged).
    split_and!; [done.. |].
    intros n wh ch.
    destruct (check_loop_grows env wh ch n (initial_state cands)) as (more & Hm & Hw).
    fold s' in Hm, Hw. unfold requests_for. rewrite Hm, fetch_log_app, occurrences_app.
    fold (requests_for c more). rewrite (requests_for_watched (feeds s') c more) by done.
    rewrite Hfetch, occurrences_rev, occurrences_url. by apply occurrences_one. }
  exists visited, rest. split; [done |]. split; [done |]. split.
  - intros Hret. destruct (Hok Hret) as [-> Hall]. split; [done |].
    rewrite app_nil_r in Hsplit. subst visited.
    intros c Hc. by apply Hsettled, Hall.
  - intros e He.
    destruct (Hbad e He) as (before & c & -> & Hall & Hcf & Hcd & h & Hh & Hfail).
    exists before, c, h. split_and!; try done.
    intros c' Hc'. apply Hsettled; [| by apply Hall].
    apply elem_of_app. by left.
Qed.

Lemma seeding_distinct_candidates_witness :
  let s' := seeded Samples.env_none (initial_state ["ec2"; "s3"]) in
  fetch_log (history s') = rev (map AWS_RSS_URL ["ec2"; "s3"])
  ∧ "ec2" ∉ feeds s'.
Proof.
  intros s'.
  assert (NoDup ["ec2"; "s3"]) as Hnd by (by apply (bool_decide_unpack _)).
  destruct (seeding_distinct_candidates Samples.env_none ["ec2"; "s3"] Hnd)
    as (visited & rest & Hsplit & Hlog & Hok & _).
  destruct (Hok eq_refl) as [-> Hall].
  rewrite app_nil_r in Hsplit. subst visited.
  split; [exact Hlog |].
  destruct (Hall "ec2" (list_elem_of_here _ _))
    as (h & later & data & code & Hh & Ha & Hs & Hbad & _).
  apply Hbad. injection Ha as <-. injection Hs as <-. discriminate.
Defined.

(** ** Pacing *)

#[global] Instance history_extends_preorder : PreOrder history_extends.
Proof.
  split.
  - intros s. by exists [].
  - intros s1 s2 s3 [l1 H1] [l2 H2]. exists (l2 ++ l1).
    by rewrite H2, H1, app_assoc.
Qed.

Lemma check_feed_history env slack_webhook slack_channel s feed :
  ∃ new, history (check_feed env slack_webhook slack_channel feed s).2
         = new ++ EvFetch (AWS_RSS_URL feed) :: history s.
Proof.
  destruct (check_feed_visit env slack_webhook slack_channel s feed); simpl.
  - by exists [].
  - by exists [].
  - by exists [].
  - by exists [EvSleep REQUESTS_INTERVAL].
  - by eexists [_; _; _].
  - by eexists [_].
Qed.

Lemma check_feed_extends env slack_webhook slack_channel feed :
  preserves history_extends (check_feed env slack_webhook slack_channel feed).
Proof.
  intros s. destruct (check_feed_history env slack_webhook slack_channel s feed)
    as [new Hnew].
  exists (new ++ [EvFetch (AWS_RSS_URL feed)]). by rewrite Hnew, <- app_assoc.
Qed.

(** A visit that finds entries and ends normally ends with the pause of
    line 133. *)
Lemma pause_after_entries env slack_webhook slack_channel s feed data :
  snapshot env s feed = Parsed data →
  entries data ≠ [] →
  (check_feed env slack_webhook slack_channel feed s).1 = Ret tt →
  ∃ before,
    history (check_feed env slack_webhook slack_channel feed s).2
    = EvSleep REQUESTS_INTERVAL :: before.
Proof.
  intros Ha.
  destruct (check_feed_visit env slack_webhook slack_channel s feed)
    as [Ha' | data' Ha' He | data' item rest Ha' He Hk
        | data' item rest saved Ha' He Hk Hle
        | data' item rest saved code Ha' He Hk Hlt Hp
        | data' item rest saved Ha' He Hk Hlt Hp];
    cbn [fst snd history]; intros Hne Hret; try done; try by eexists.
  rewrite Ha in Ha'. injection Ha' as <-. done.
Qed.

(** After a snapshot without entries the next feed is requested at
    once: the [continue] of line 117 passes over the pause of line 133. *)
Lemma no_pause_after_empty_snapshot env slack_webhook slack_channel s feed data
    next rest :
  snapshot env s feed = Parsed data →
  entries data = [] →
  ∃ later,
    history (for_each (feed :: next :: rest)
               (check_feed env slack_webhook slack_channel) s).2
    = later ++ EvFetch (AWS_RSS_URL next) :: EvFetch (AWS_RSS_URL feed) :: history s.
Proof.
  intros Ha He. cbn [for_each]. unfold bind.
  rewrite (check_feed_empty env slack_webhook slack_channel s feed data Ha He).
  destruct (check_feed_history env slack_webhook slack_channel (fetched s feed) next)
    as [new Hnew].
  destruct (check_feed env slack_webhook slack_channel next (fetched s feed))
    as [[[] | e] s2]; cbn [snd] in *.
  - destruct (preserves_for_each history_extends rest _
                (check_feed_extends env slack_webhook slack_channel) s2)
      as [later Hlater].
    exists (later ++ new). by rewrite Hlater, Hnew, <- app_assoc.
  - by exists new.
Qed.

(** C7 fails on the code.  Two feeds are watched and both answer with
    an empty entry list in the first round: the second request follows
    the first with no pause between them, and the only pause of the round
    is the one of [CHECKS_INTERVAL] at its end, so that the round sleeps
    less than two times [REQUESTS_INTERVAL] plus [CHECKS_INTERVAL]. *)
Theorem round_without_pauses :
  let s0 := initial_state ["ec2"; "s3"] in
  let s1 := (check_loop Samples.env_quiet 0 "hook" "#aws" s0).2 in
  let s2 := (check_loop Samples.env_quiet 1 "hook" "#aws" s0).2 in
  feeds s1 = ["ec2"; "s3"]
  ∧ snapshot Samples.env_quiet s1 "ec2" = Parsed (mk_FeedParserDict (Some 200) [])
  ∧ history s2
    = EvSleep CHECKS_INTERVAL
      :: EvFetch (AWS_RSS_URL "s3")
      :: EvFetch (AWS_RSS_URL "ec2")
      :: history s1
  ∧ slept (history s2) - slept (history s1) = CHECKS_INTERVAL
  ∧ slept (history s2) - slept (history s1)
    < 2 * REQUESTS_INTERVAL + CHECKS_INTERVAL.
Proof. vm_compute. by split_and!. Qed.

(** * Further properties *)

(** ** Histories that grow by events of one kind *)

Section Only.

Context (P : event → Prop).

#[global] Instance only_preorder : PreOrder (only P).
Proof.
  split.
  - intros s. by exists [].
  - intros s1 s2 s3 (l1 & H1 & Hp1) (l2 & H2 & Hp2). exists (l2 ++ l1). split.
    + by rewrite H2, H1, app_assoc.
    + by apply Forall_app.
Qed.

Lemma only_quiet s s' : history s' = history s → only P s s'.
Proof. intros Hh. by exists []. Qed.

Lemma only_new s s' new :
  history s' = new ++ history s → Forall P new → only P s s'.
Proof. intros Hh Hp. by exists new. Qed.

Lemma quiet_only {A} (m : M A) :
  (∀ s, history (m s).2 = history s) → preserves (only P) m.
Proof. intros Hq s. by apply only_quiet. Qed.

Lemma emit_only e : P e → preserves (only P) (emit e).
Proof. intros He s. apply (only_new _ _ [e]); [done |]. by repeat constructor. Qed.

Lemma logging_log_only lvl fmt args :
  P (EvLog lvl fmt args) → preserves (only P) (logging_log lvl fmt args).
Proof.
  intros He. unfold logging_log. case_decide; [by apply emit_only |].
  by apply quiet_only.
Qed.

Lemma dates_get_only feed : preserves (only P) (dates_get feed).
Proof.
  apply quiet_only. intros s. unfold dates_get.
  by destruct (last_saved_dates s !! feed).
Qed.

Lemma preserves_for_each_elem {A} (R : relation state) `{!PreOrder R}
    (l : list A) (body : A → M unit) :
  (∀ x, x ∈ l → preserves R (body x)) → preserves R (for_each l body).
Proof.
  induction l as [| x l IH]; intros Hb; simpl.
  - by apply preserves_ret.
  - apply preserves_bind; [done | apply Hb; by left |].
    intros _. apply IH. intros y Hy. apply Hb. by right.
Qed.

Lemma seed_feed_only env feed :
  P (EvFetch (AWS_RSS_URL feed)) → P (EvSleep REQUESTS_INTERVAL) →
  P (ignoring feed) → preserves (only P) (seed_feed env feed).
Proof.
  intros Hf Hs Hi s.
  destruct (seed_feed_visit env s feed); simpl;
    first [ eapply (only_new _ _ [_; _]); [done | by repeat constructor]
          | eapply (only_new _ _ [_]); [done | by repeat constructor] ].
Qed.

Lemma check_feed_only env slack_webhook slack_channel feed :
  P (EvFetch (AWS_RSS_URL feed)) → P (EvSleep REQUESTS_INTERVAL) →
  P (EvLog INFO "Notification sent to Slack!" []) →
  (∀ item, served env item →
           P (EvPost slack_webhook (slack_payload item slack_channel))) →
  preserves (only P) (check_feed env slack_webhook slack_channel feed).
Proof.
  intros Hf Hs Hl Hp s.
  destruct (check_feed_visit env slack_webhook slack_channel s feed)
    as [Ha | data Ha He | data item rest Ha He Hk
        | data item rest saved Ha He Hk Hle
        | data item rest saved code Ha He Hk Hlt Hpost
        | data item rest saved Ha He Hk Hlt Hpost];
    simpl.
  - eapply (only_new _ _ [_]); [done | by repeat constructor].
  - eapply (only_new _ _ [_]); [done | by repeat constructor].
  - eapply (only_new _ _ [_]); [done | by repeat constructor].
  - eapply (only_new _ _ [_; _]); [done | by repeat constructor].
  - assert (served env item) as Hserved by (by eexists _, _, _, _).
    eapply (only_new _ _ [_; _; _; _]); [done |]. repeat constructor; auto.
  - assert (served env item) as Hserved by (by eexists _, _, _, _).
    eapply (only_new _ _ [_; _]); [done |]. repeat constructor; auto.
Qed.

Lemma seed_only env :
  (∀ f, P (EvFetch (AWS_RSS_URL f))) → P (EvSleep REQUESTS_INTERVAL) →
  (∀ f, P (ignoring f)) → preserves (only P) (seed env).
Proof.
  intros Hf Hs Hi. unfold seed.
  apply preserves_bind; [apply _ | by apply quiet_only | intros _].
  apply preserves_bind; [apply _ | by apply quiet_only | intros copy].
  apply preserves_for_each; [apply _ |]. intros x. by apply seed_feed_only.
Qed.

Lemma steady_only env slack_webhook slack_channel n :
  (∀ f, P (EvFetch (AWS_RSS_URL f))) → P (EvSleep REQUESTS_INTERVAL) →
  P (EvSleep CHECKS_INTERVAL) →
  P (EvLog INFO "Notification sent to Slack!" []) →
  (∀ item, served env item →
           P (EvPost slack_webhook (slack_payload item slack_channel))) →
  preserves (only P) (steady env n slack_webhook slack_channel).
Proof.
  intros Hf Hs Hc Hl Hp. apply preserves_while_true; [apply _ |].
  unfold check_pass. rewrite logging_debug_skip_bind.
  apply preserves_bind; [apply _ | by apply quiet_only | intros fs].
  apply preserves_bind; [apply _ | | intros _; by apply emit_only].
  apply preserves_for_each; [apply _ |]. intros x. by apply check_feed_only.
Qed.

End Only.

Lemma only_weaken (P Q : event → Prop) s s' :
  (∀ e, P e → Q e) → only P s s' → only Q s s'.
Proof.
  intros Hpq (new & Hh & Hall). exists new. split; [done |].
  by eapply Forall_impl.
Qed.

(** *** Reading the parts of a history *)

Lemma post_log_app h1 h2 : post_log (h1 ++ h2) = post_log h1 ++ post_log h2.
Proof.
  induction h1 as [| e h1 IH]; simpl; [done |].
  destruct e; simpl; by rewrite IH.
Qed.

Lemma log_records_app lvl h1 h2 :
  log_records lvl (h1 ++ h2) = log_records lvl h1 ++ log_records lvl h2.
Proof.
  induction h1 as [| e h1 IH]; simpl; [done |].
  destruct e; simpl; try done. case_decide; simpl; by rewrite IH.
Qed.

Lemma slept_app h1 h2 : slept (h1 ++ h2) = slept h1 + slept h2.
Proof.
  induction h1 as [| e h1 IH]; simpl; [done |].
  destruct e; simpl; lia.
Qed.

(** ** What each phase adds to the history *)

Lemma seeding_event_no_post new : Forall seeding_event new → post_log new = [].
Proof.
  induction 1 as [| e new He Hall IH]; simpl; [done |].
  by destruct e.
Qed.

(** X1. Seeding posts nothing: whatever the candidates and whatever the
    feeds answer, and whether seeding ends normally or not, the only calls
    it makes are requests for feeds, pauses of [REQUESTS_INTERVAL] and
    "Ignoring not existent feed" warnings. *)
Theorem seeding_posts_nothing env s0 :
  ∃ new,
    history (seeded env s0) = new ++ history s0
    ∧ Forall seeding_event new
    ∧ post_log (history (seeded env s0)) = post_log (history s0).
Proof.
  destruct (seed_only seeding_event env) with (s := s0) as (new & Hh & Hall);
    try done.
  exists new. fold (seeded env s0) in Hh. split_and!; [done.. |].
  by rewrite Hh, post_log_app, (seeding_event_no_post new Hall).
Qed.

Lemma steady_event_no_alarm env slack_webhook slack_channel new :
  Forall (steady_event env slack_webhook slack_channel) new →
  log_records WARNING new = [] ∧ log_records ERROR new = [].
Proof.
  induction 1 as [| e new He Hall [IHw IHe]]; simpl; [done |].
  destruct e as [u | u p | t | lvl fmt args]; simpl in *; try done.
  destruct He as (-> & _). by rewrite !decide_False by done.
Qed.

(** X2. The steady state is silent about failures: over any number of
    rounds it makes only requests, POSTs to the webhook of the payload of
    a served entry, pauses of [REQUESTS_INTERVAL] or [CHECKS_INTERVAL],
    and the INFO record "Notification sent to Slack!"; no warning and no
    error is ever logged, whatever the feeds and the webhook answer. *)
Theorem steady_state_is_silent env slack_webhook slack_channel n s :
  ∃ new,
    history (steady env n slack_webhook slack_channel s).2 = new ++ history s
    ∧ Forall (steady_event env slack_webhook slack_channel) new
    ∧ log_records WARNING new = []
    ∧ log_records ERROR new = [].
Proof.
  destruct (steady_only (steady_event env slack_webhook slack_channel)
              env slack_webhook slack_channel n) with (s := s)
    as (new & Hh & Hall); simpl; eauto.
  exists new. split; [done |]. split; [done |].
  by apply (steady_event_no_alarm env slack_webhook slack_channel).
Qed.

Lemma abort_if_empty_only (P : event → Prop) :
  P no_valid_feeds → preserves (only P) abort_if_empty.
Proof.
  intros He. unfold abort_if_empty.
  apply preserves_bind; [apply _ | by apply quiet_only | intros fs].
  destruct fs; [| by apply quiet_only].
  apply preserves_bind; [apply _ | by apply logging_log_only | intros _].
  by apply quiet_only.
Qed.

Lemma announce_feed_only (P : event → Prop) feed :
  (∀ d, P (EvLog INFO FEED_LINE [AStr (AWS_RSS_URL feed); ADate d])) →
  preserves (only P) (announce_feed feed).
Proof.
  intros He. unfold announce_feed.
  apply preserves_bind; [apply _ | apply dates_get_only | intros d].
  by apply logging_log_only.
Qed.

Lemma check_loop_script_post env slack_webhook slack_channel n :
  preserves (only (script_post env slack_webhook slack_channel))
            (check_loop env n slack_webhook slack_channel).
Proof.
  unfold check_loop.
  apply preserves_bind; [apply _ | by apply seed_only | intros _].
  apply preserves_bind; [apply _ | by apply abort_if_empty_only | intros _].
  apply preserves_bind; [apply _ | by apply logging_log_only | intros _].
  apply preserves_bind; [apply _ | by apply quiet_only | intros fs].
  apply preserves_bind; [apply _ | | intros _].
  - apply preserves_for_each; [apply _ |]. intros x. by apply announce_feed_only.
  - apply steady_only; simpl; eauto.
Qed.

Lemma script_post_log env slack_webhook slack_channel new url data :
  Forall (script_post env slack_webhook slack_channel) new →
  (url, data) ∈ post_log new →
  url = slack_webhook
  ∧ ∃ item, served env item ∧ data = slack_payload item slack_channel.
Proof.
  induction 1 as [| e new He Hall IH]; simpl.
  - by intros ?%elem_of_nil.
  - destruct e as [u | u p | t | lvl fmt args]; try done.
    intros [[= -> ->] | Hin]%elem_of_cons; [done | by apply IH].
Qed.

(** X3. A run posts nowhere but to the webhook it was given, and it
    invents nothing: every POST of a run of [check_loop], over any number
    of rounds, goes to [slack_webhook], names [slack_channel] as its
    channel and "aws" as its user, and carries one attachment, built from
    the title, the link and the summary of an entry that came first in a
    snapshot served for some feed. *)
Theorem posts_only_to_the_webhook env slack_webhook slack_channel n s0 :
  ∃ new,
    history (check_loop env n slack_webhook slack_channel s0).2 = new ++ history s0
    ∧ ∀ url data, (url, data) ∈ post_log new →
        url = slack_webhook
        ∧ channel data = slack_channel
        ∧ username data = "aws"
        ∧ ∃ item h feed snap rest,
            feed_server env h (AWS_RSS_URL feed) = Parsed snap
            ∧ entries snap = item :: rest
            ∧ attachments data
              = [mk_Attachment (message_color item) (title item)
                               (link item) (summary item)].
Proof.
  destruct (check_loop_script_post env slack_webhook slack_channel n s0)
    as (new & Hh & Hall).
  exists new. split; [done |]. intros url data Hin.
  destruct (script_post_log _ _ _ _ _ _ Hall Hin)
    as (-> & item & (h & feed & snap & rest & Ha & He) & ->).
  split_and!; [done.. |]. by exists item, h, feed, snap, rest.
Qed.

(** ** What seeding does to the list of feeds *)

#[global] Instance feeds_shrink_preorder : PreOrder feeds_shrink.
Proof.
  split.
  - intros s. unfold feeds_shrink. reflexivity.
  - intros s1 s2 s3 H12 H23. unfold feeds_shrink in *. by etrans.
Qed.

Lemma remove_first_sublist x l r : remove_first x l = Some r → r `sublist_of` l.
Proof.
  revert r. induction l as [| y l IH]; simpl; intros r Hr; [done |].
  destruct (decide (y = x)) as [-> | Hne].
  - injection Hr as <-. by apply sublist_cons.
  - destruct (remove_first x l) as [r' |]; [| done].
    injection Hr as <-. apply sublist_skip. by apply IH.
Qed.

Lemma remove_first_length x l r :
  remove_first x l = Some r → length l = S (length r).
Proof.
  revert r. induction l as [| y l IH]; simpl; intros r Hr; [done |].
  destruct (decide (y = x)) as [-> | Hne].
  - by injection Hr as <-.
  - destruct (remove_first x l) as [r' |]; [| done].
    injection Hr as <-. simpl. by rewrite (IH r').
Qed.

Lemma seed_feed_shrink env feed : preserves feeds_shrink (seed_feed env feed).
Proof.
  intros s. unfold feeds_shrink.
  destruct (seed_feed_visit env s feed)
    as [Ha | data Ha Hs | data Ha Hs | data code r Ha Hs Hc Hr | data code Ha Hs Hc Hr];
    simpl; try done.
  by apply (remove_first_sublist feed).
Qed.

Lemma seed_shrink env : preserves feeds_shrink (seed env).
Proof.
  unfold seed.
  apply preserves_bind; [apply _ | intros s; by unfold feeds_shrink | intros _].
  apply preserves_bind; [apply _ | intros s; by unfold feeds_shrink | intros copy].
  apply preserves_for_each; [apply _ | apply seed_feed_shrink].
Qed.

(** X4. Seeding only deletes names from the list it is given: the list
    of watched feeds is a sublist of the candidates, so the survivors are
    visited in the order of the command line, and no run of [check_loop]
    ever holds a list that is not such a sublist. *)
Theorem survivors_keep_their_order env slack_webhook slack_channel s0 :
  feeds (seeded env s0) `sublist_of` feeds s0
  ∧ ∀ n, feeds (check_loop env n slack_webhook slack_channel s0).2
         `sublist_of` feeds s0.
Proof.
  assert (feeds (seeded env s0) `sublist_of` feeds s0) as Hseed
    by apply (seed_shrink env s0).
  split; [done |]. intros n.
  by rewrite (wr_feeds _ _ (check_loop_watch_rel env slack_webhook slack_channel n s0)).
Qed.

Lemma seed_loop_accounts env todo s :
  seed_inv todo s →
  let rs := for_each todo (seed_feed env) s in
  ∃ new,
    history rs.2 = new ++ history s
    ∧ (length (fetch_log new) ≤ length todo)%nat
    ∧ (todo ≠ [] → (1 ≤ length (fetch_log new))%nat)
    ∧ (rs.1 = Ret tt →
       length (fetch_log new) = length todo
       ∧ (length (feeds rs.2) + length (log_records WARNING new)
          = length (feeds s))%nat
       ∧ slept new + REQUESTS_INTERVAL * Z.of_nat (length (log_records WARNING new))
         = REQUESTS_INTERVAL * Z.of_nat (length todo)).
Proof.
  revert s. induction todo as [| x todo IH]; intros s Hinv; simpl.
  { exists []. simpl. split_and!; [done.. | ]. intros _. split_and!; [done.. | lia]. }
  pose proof (seed_feed_inv env x todo s Hinv) as Hout. revert Hout.
  unfold bind.
  destruct (seed_feed_visit env s x)
    as [Ha | data Ha Hs | data Ha Hs | data code r Ha Hs Hc Hr | data code Ha Hs Hc Hr];
    simpl; intros Hout.
  - exists [EvFetch (AWS_RSS_URL x)]. simpl. split_and!; [done | lia | done | done].
  - exists [EvFetch (AWS_RSS_URL x)]. simpl. split_and!; [done | lia | done | done].
  - destruct (IH _ Hout) as (new & Hh & Hle & _ & Hret). simpl in *.
    exists (new ++ [EvSleep REQUESTS_INTERVAL; EvFetch (AWS_RSS_URL x)]).
    rewrite Hh, <- app_assoc, fetch_log_app, log_records_app, slept_app,
      !length_app. simpl.
    split_and!; [done | lia | lia |].
    intros Hr. destruct (Hret Hr) as (Hf & Hl & Hz).
    split_and!; [lia | lia |]. unfold REQUESTS_INTERVAL in *. lia.
  - destruct (IH _ Hout) as (new & Hh & Hle & _ & Hret). simpl in *.
    apply remove_first_length in Hr.
    exists (new ++ [ignoring x; EvFetch (AWS_RSS_URL x)]).
    rewrite Hh, <- app_assoc, fetch_log_app, log_records_app, slept_app,
      !length_app. simpl.
    split_and!; [done | lia | lia |].
    intros Hr'. destruct (Hret Hr') as (Hf & Hl & Hz).
    split_and!; [lia | lia |]. unfold REQUESTS_INTERVAL in *. lia.
  - exists [ignoring x; EvFetch (AWS_RSS_URL x)]. simpl.
    split_and!; [done | lia | done | done].
Qed.

(** X5. The books of seeding: for any list of candidates, seeding posts
    nothing and makes at most one request per candidate.  When it ends
    normally it has made exactly one request per candidate; the warnings
    it logged and the feeds it kept add up to the candidates; and it
    paused [REQUESTS_INTERVAL] once per feed it kept, and not at all after
    a feed it dropped. *)
Theorem seeding_accounts env s0 :
  ∃ new,
    history (seeded env s0) = new ++ history s0
    ∧ (length (fetch_log new) ≤ length (feeds s0))%nat
    ∧ post_log new = []
    ∧ ((seed env s0).1 = Ret tt →
       length (fetch_log new) = length (feeds s0)
       ∧ (length (feeds (seeded env s0)) + length (log_records WARNING new)
          = length (feeds s0))%nat
       ∧ slept new = REQUESTS_INTERVAL * Z.of_nat (length (feeds (seeded env s0)))).
Proof.
  destruct (seed_only seeding_event env) with (s := s0) as (new' & Hh' & Hall);
    try done.
  fold (seeded env s0) in Hh'.
  destruct (seed_loop_accounts env (feeds s0)
              (mk_state (feeds s0) ∅ (history s0)) (seed_inv_initial s0))
    as (new & Hh & Hle & _ & Hret).
  change (for_each (feeds s0) (seed_feed env) (mk_state (feeds s0) ∅ (history s0)))
    with (seed env s0) in *.
  fold (seeded env s0) in Hh, Hret. simpl in *.
  assert (new' = new) as -> by (apply (app_inv_tail (history s0)); congruence).
  exists new. split_and!; [done | done | by apply seeding_event_no_post |].
  intros Hr. destruct (Hret Hr) as (Hf & Hl & Hz).
  split_and!; [done.. |]. unfold REQUESTS_INTERVAL in *. lia.
Qed.

Lemma seeding_accounts_witness :
  ∃ new,
    history (seeded Samples.env_flaky (initial_state ["ec2"; "ec2"])) = new ++ []
    ∧ length (fetch_log new) = 2%nat
    ∧ slept new = 2.
Proof.
  destruct (seeding_accounts Samples.env_flaky (initial_state ["ec2"; "ec2"]))
    as (new & Hh & _ & _ & Hret).
  destruct (Hret eq_refl) as (Hf & _ & Hz).
  exists new. split; [exact Hh |]. split; [exact Hf | exact Hz].
Defined.

(** ** Which feeds are requested *)

Lemma watched_fetch_log F new u :
  Forall (watched_event F) new → u ∈ fetch_log new →
  ∃ f, f ∈ F ∧ u = AWS_RSS_URL f.
Proof.
  induction 1 as [| e new He Hall IH]; simpl.
  - by intros ?%elem_of_nil.
  - destruct e as [u' | | |]; try done.
    intros [-> | Hin]%elem_of_cons; [done | by apply IH].
Qed.

Lemma seed_watched env s0 : grows_from (feeds s0) s0 (seeded env s0).
Proof.
  unfold seeded, seed, bind. simpl.
  destruct (preserves_for_each_elem (only (watched_event (feeds s0)))
              (feeds s0) (seed_feed env)) with
    (s := mk_state (feeds s0) ∅ (history s0)) as (new & Hh & Hall).
  - intros x Hx. apply seed_feed_only; [by exists x | done..].
  - by exists new.
Qed.

(** X6. A run asks only for the feeds it was told to watch: every
    request made while seeding is for the URL of a candidate, and every
    request made after seeding, over any number of rounds, is for the URL
    of a feed that survived seeding. *)
Theorem requests_only_for_named_feeds env slack_webhook slack_channel n s0 :
  ∃ seeding later,
    history (seeded env s0) = seeding ++ history s0
    ∧ history (check_loop env n slack_webhook slack_channel s0).2
      = later ++ history (seeded env s0)
    ∧ (∀ u, u ∈ fetch_log seeding → ∃ f, f ∈ feeds s0 ∧ u = AWS_RSS_URL f)
    ∧ (∀ u, u ∈ fetch_log later →
         ∃ f, f ∈ feeds (seeded env s0) ∧ u = AWS_RSS_URL f).
Proof.
  destruct (seed_watched env s0) as (seeding & Hs & Hws).
  destruct (check_loop_grows env slack_webhook slack_channel n s0)
    as (later & Hl & Hwl).
  exists seeding, later. split_and!; [done | done | |].
  - intros u. by apply watched_fetch_log.
  - intros u. by apply watched_fetch_log.
Qed.

(** ** The books of a round *)

(** Closes the six entries of the books of a visit. *)
Local Ltac close_books Hret :=
  split; [done |]; split; [simpl; lia |]; split; [done |];
  split; [simpl in *; lia |];
  split; [unfold REQUESTS_INTERVAL in *; simpl in *; lia |];
  try (intros Hr; f_equal; by apply Hret); try done.

Lemma pass_accounts env slack_webhook slack_channel l s :
  let rs := for_each l (check_feed env slack_webhook slack_channel) s in
  ∃ k new,
    history rs.2 = new ++ history s
    ∧ (k ≤ length l)%nat
    ∧ fetch_log new = rev (map AWS_RSS_URL (take k l))
    ∧ (length (post_log new) ≤ k)%nat
    ∧ 0 ≤ slept new ≤ REQUESTS_INTERVAL * Z.of_nat k
    ∧ (rs.1 = Ret tt → k = length l).
Proof.
  revert s. induction l as [| x l IH]; intros s; simpl.
  { exists O, []. close_books I. }
  unfold bind.
  destruct (check_feed_visit env slack_webhook slack_channel s x)
    as [Ha | data Ha He | data item rest Ha He Hk
        | data item rest saved Ha He Hk Hle
        | data item rest saved code Ha He Hk Hlt Hp
        | data item rest saved Ha He Hk Hlt Hp].
  - exists 1%nat, [EvFetch (AWS_RSS_URL x)]. close_books I.
  - destruct (IH (fetched s x)) as (k & new & Hh & Hkl & Hf & Hpo & Hsl & Hret).
    exists (S k), (new ++ [EvFetch (AWS_RSS_URL x)]).
    rewrite Hh, <- app_assoc, fetch_log_app, post_log_app, slept_app, Hf,
      !length_app.
    close_books Hret.
  - exists 1%nat, [EvFetch (AWS_RSS_URL x)]. close_books I.
  - match goal with |- context [for_each l _ ?s1] =>
      destruct (IH s1) as (k & new & Hh & Hkl & Hf & Hpo & Hsl & Hret) end.
    exists (S k), (new ++ [EvSleep REQUESTS_INTERVAL; EvFetch (AWS_RSS_URL x)]).
    rewrite Hh, <- app_assoc, fetch_log_app, post_log_app, slept_app, Hf,
      !length_app.
    close_books Hret.
  - match goal with |- context [for_each l _ ?s1] =>
      destruct (IH s1) as (k & new & Hh & Hkl & Hf & Hpo & Hsl & Hret) end.
    exists (S k),
      (new ++ [EvSleep REQUESTS_INTERVAL;
               EvLog INFO "Notification sent to Slack!" [];
               EvPost slack_webhook (slack_payload item slack_channel);
               EvFetch (AWS_RSS_URL x)]).
    rewrite Hh, <- app_assoc, fetch_log_app, post_log_app, slept_app, Hf,
      !length_app.
    close_books Hret.
  - exists 1%nat, [EvPost slack_webhook (slack_payload item slack_channel);
                  EvFetch (AWS_RSS_URL x)]. close_books I.
Qed.

Lemma check_pass_for_each env slack_webhook slack_channel s :
  check_pass env slack_webhook slack_channel s
  = (for_each (feeds s) (check_feed env slack_webhook slack_channel) ;;
     time_sleep CHECKS_INTERVAL) s.
Proof. reflexivity. Qed.

(** X7. A round asks for the watched feeds in the order of the list,
    each one once, and posts at most one notification per feed asked: the
    requests of a round that ends normally are those of the whole list,
    followed by the pause of [CHECKS_INTERVAL]; those of a round that an
    exception ends are those of an initial part of the list.  Between the
    requests the round pauses at most [REQUESTS_INTERVAL] per feed. *)
Theorem round_asks_each_feed_once env slack_webhook slack_channel s :
  let rs := check_pass env slack_webhook slack_channel s in
  ∃ k new,
    history rs.2
    = match rs.1 with
      | Ret _ => EvSleep CHECKS_INTERVAL :: new
      | Raise _ => new
      end ++ history s
    ∧ (k ≤ length (feeds s))%nat
    ∧ fetch_log new = rev (map AWS_RSS_URL (take k (feeds s)))
    ∧ (length (post_log new) ≤ k)%nat
    ∧ 0 ≤ slept new ≤ REQUESTS_INTERVAL * Z.of_nat k
    ∧ (rs.1 = Ret tt → k = length (feeds s)).
Proof.
  rewrite check_pass_for_each. unfold bind.
  destruct (pass_accounts env slack_webhook slack_channel (feeds s) s)
    as (k & new & Hh & Hkl & Hf & Hpo & Hsl & Hret).
  destruct (for_each (feeds s) (check_feed env slack_webhook slack_channel) s)
    as [[[] | e] s1]; simpl in *.
  - exists k, new. rewrite Hh. repeat (split; [done |]). intros _. by apply Hret.
  - exists k, new. by repeat (split; [done |]).
Qed.

Lemma check_pass_normal env slack_webhook slack_channel s s1 :
  check_pass env slack_webhook slack_channel s = (Ret tt, s1) →
  ∃ new,
    history s1 = EvSleep CHECKS_INTERVAL :: new ++ history s
    ∧ length (fetch_log new) = length (feeds s)
    ∧ (length (post_log new) ≤ length (feeds s))%nat
    ∧ 0 ≤ slept new ≤ REQUESTS_INTERVAL * Z.of_nat (length (feeds s))
    ∧ feeds s1 = feeds s.
Proof.
  intros Hpass.
  pose proof (check_pass_watch_rel env slack_webhook slack_channel s) as Hw.
  rewrite Hpass in Hw. simpl in Hw.
  rewrite check_pass_for_each in Hpass. unfold bind in Hpass.
  destruct (pass_accounts env slack_webhook slack_channel (feeds s) s)
    as (k & new & Hh & Hkl & Hf & Hpo & Hsl & Hret).
  destruct (for_each (feeds s) (check_feed env slack_webhook slack_channel) s)
    as [[[] | e] s2]; simpl in *; [| done].
  injection Hpass as <-. simpl. rewrite (Hret eq_refl) in *.
  exists new. rewrite Hh, Hf, length_rev, length_map, firstn_all.
  split; [done |]. split; [done |]. split; [done |]. split; [done |].
  apply (wr_feeds _ _ Hw).
Qed.

(** X8. The request rate of the steady state is bounded: [n] rounds that
    end normally make exactly [n] times as many requests as there are
    watched feeds and at most as many POSTs, and they pause for at least
    [n] times [CHECKS_INTERVAL], and for at most [REQUESTS_INTERVAL] more
    per request. *)
Theorem rounds_account env slack_webhook slack_channel n s :
  (steady env n slack_webhook slack_channel s).1 = Ret tt →
  ∃ new,
    history (steady env n slack_webhook slack_channel s).2 = new ++ history s
    ∧ length (fetch_log new) = (n * length (feeds s))%nat
    ∧ (length (post_log new) ≤ n * length (feeds s))%nat
    ∧ Z.of_nat n * CHECKS_INTERVAL ≤ slept new
    ∧ slept new ≤ Z.of_nat n * CHECKS_INTERVAL
                  + REQUESTS_INTERVAL * Z.of_nat (n * length (feeds s)).
Proof.
  revert s. induction n as [| n IH]; intros s; unfold steady; simpl.
  { intros _. exists []. simpl. split_and!; try done; lia. }
  unfold bind.
  destruct (check_pass env slack_webhook slack_channel s) as [[[] | e] s1] eqn:Hpass;
    simpl; [| done].
  intros Hret.
  destruct (check_pass_normal env slack_webhook slack_channel s s1 Hpass)
    as (new1 & Hh1 & Hf1 & Hp1 & Hs1 & Hfeeds).
  destruct (IH s1 Hret) as (new & Hh & Hf & Hp & Hlo & Hhi).
  unfold steady in Hh. rewrite Hfeeds in *.
  exists (new ++ EvSleep CHECKS_INTERVAL :: new1).
  rewrite Hh, Hh1, <- app_assoc, fetch_log_app, post_log_app, slept_app,
    !length_app. simpl.
  split; [done |]. split; [lia |]. split; [lia |].
  unfold CHECKS_INTERVAL, REQUESTS_INTERVAL in *. split; lia.
Qed.

Lemma rounds_account_witness :
  let s := Samples.watching_ec2 Samples.two_requests in
  ∃ new,
    history (steady Samples.env_up 3 "hook" "#aws" s).2 = new ++ history s
    ∧ length (fetch_log new) = 3%nat.
Proof.
  intros s.
  destruct (rounds_account Samples.env_up "hook" "#aws" 3 s eq_refl)
    as (new & Hh & Hf & _).
  exists new. split; [exact Hh | exact Hf].
Defined.

(** ** Visiting a feed again *)

Lemma stored_after_visit env slack_webhook slack_channel s feed data item rest :
  snapshot env s feed = Parsed data →
  entries data = item :: rest →
  (check_feed env slack_webhook slack_channel feed s).1 = Ret tt →
  ∃ d, last_saved_dates (check_feed env slack_webhook slack_channel feed s).2 !! feed
       = Some d
       ∧ dt_le (datetime_of_tuple6 (published_parsed item)) d.
Proof.
  intros Ha He.
  destruct (check_feed_visit env slack_webhook slack_channel s feed)
    as [Ha' | data' Ha' He' | data' item0 rest0 Ha' He' Hk
        | data' item0 rest0 saved Ha' He' Hk Hle
        | data' item0 rest0 saved code Ha' He' Hk Hlt Hp
        | data' item0 rest0 saved Ha' He' Hk Hlt Hp];
    simpl; intros Hret; try done;
    rewrite Ha in Ha'; injection Ha' as <-;
    rewrite He in He'; try done; injection He' as <- <-.
  - by exists saved.
  - eexists. rewrite lookup_insert_eq. split; [done | apply dt_le_refl].
Qed.

(** X9. No entry is notified twice in a row: after a visit of a feed
    that found entries and ended normally, a second visit of the same
    feed whose newest entry is not later than the newest entry of the
    first one ends normally too, posts nothing and leaves the stored
    dates as they are. *)
Theorem no_repeat_notification env slack_webhook slack_channel s feed
    data item rest data' item' rest' :
  snapshot env s feed = Parsed data →
  entries data = item :: rest →
  let rs := check_feed env slack_webhook slack_channel feed s in
  rs.1 = Ret tt →
  snapshot env rs.2 feed = Parsed data' →
  entries data' = item' :: rest' →
  dt_le (datetime_of_tuple6 (published_parsed item'))
        (datetime_of_tuple6 (published_parsed item)) →
  let rs' := check_feed env slack_webhook slack_channel feed rs.2 in
  rs'.1 = Ret tt
  ∧ last_saved_dates rs'.2 = last_saved_dates rs.2
  ∧ post_log (history rs'.2) = post_log (history rs.2).
Proof.
  intros Ha He rs Hret Ha' He' Hle rs'. subst rs rs'.
  destruct (stored_after_visit env slack_webhook slack_channel s feed data item rest
              Ha He Hret) as (d & Hd & Hled).
  assert (dt_le (datetime_of_tuple6 (published_parsed item')) d) as Hle'
    by (by eapply dt_le_trans).
  apply datetime_gt_false in Hle'.
  by rewrite (check_feed_old env slack_webhook slack_channel _ feed data' item' rest' d
                Ha' He' Hd Hle').
Qed.

Lemma no_repeat_notification_witness :
  let s := Samples.watching_ec2 Samples.two_requests in
  let s1 := (check_feed Samples.env_up "hook" "#aws" "ec2" s).2 in
  post_log (history s1) = [("hook", slack_payload Samples.resolved "#aws")]
  ∧ post_log (history (check_feed Samples.env_up "hook" "#aws" "ec2" s1).2)
    = post_log (history s1).
Proof.
  intros s s1. split; [reflexivity |].
  exact (proj2 (proj2
    (no_repeat_notification Samples.env_up "hook" "#aws" s "ec2"
       (mk_FeedParserDict (Some 200) [Samples.resolved; Samples.incident])
       Samples.resolved [Samples.incident]
       (mk_FeedParserDict (Some 200) [Samples.resolved; Samples.incident])
       Samples.resolved [Samples.incident]
       eq_refl eq_refl eq_refl eq_refl eq_refl (or_introl eq_refl)))).
Defined.

(** ** The entry point *)

Lemma seed_requests env s0 :
  ∃ new, history (seeded env s0) = new ++ history s0
         ∧ (length (fetch_log new) ≤ length (feeds s0))%nat
         ∧ (feeds s0 ≠ [] → (1 ≤ length (fetch_log new))%nat)
         ∧ ((seed env s0).1 = Ret tt → length (fetch_log new) = length (feeds s0)).
Proof.
  destruct (seed_loop_accounts env (feeds s0) _ (seed_inv_initial s0))
    as (new & Hh & Hle & Hone & Hret).
  exists new. split_and!; [done.. |]. intros Hr. by destruct (Hret Hr).
Qed.

(** X10. The script always has a feed to ask for: whatever names the
    command line gives, seeding makes at least one request and at most
    one per name given, and when it ends normally it has made one request
    per name, or one request, for the "all" feed, when no name is given.
    In that case every request of the run is for the URL of the "all"
    feed, and the list of watched feeds is [["all"]] or empty. *)
Theorem main_always_asks env n slack_webhook slack_channel given :
  let s0 := initial_state (parsed_feeds given) in
  let asked := length (fetch_log (history (seeded env s0))) in
  (1 ≤ asked ≤ Nat.max 1 (length given))%nat
  ∧ ((seed env s0).1 = Ret tt → asked = Nat.max 1 (length given))
  ∧ (given = [] →
     (feeds (seeded env s0) = ["all"] ∨ feeds (seeded env s0) = [])
     ∧ ∀ u, u ∈ fetch_log (history (main env n slack_webhook slack_channel given).2) →
            u = AWS_RSS_URL "all").
Proof.
  intros s0 asked. subst asked.
  destruct (seed_requests env s0) as (new & Hh & Hle & Hone & Hret).
  assert (length (feeds s0) = Nat.max 1 (length given)) as Hlen
    by (destruct given; simpl; lia).
  assert (feeds s0 ≠ []) as Hne by (by destruct given).
  rewrite Hh. simpl. rewrite app_nil_r. split_and!.
  - by apply Hone.
  - by rewrite <- Hlen.
  - intros Hr. by rewrite <- Hlen, Hret.
  - intros ->. subst s0. simpl.
    pose proof (seed_shrink env (initial_state ["all"])) as Hsub.
    unfold feeds_shrink in Hsub. fold (seeded env (initial_state ["all"])) in Hsub.
    simpl in Hsub.
    assert (∀ f, f ∈ feeds (seeded env (initial_state ["all"])) → f = "all") as Hall.
    { intros f Hf. apply (elem_of_sublist _ _ _ Hf) in Hsub.
      by apply list_elem_of_singleton in Hsub. }
    split.
    + destruct (feeds (seeded env (initial_state ["all"]))) as [| f fs] eqn:Hfs;
        [by right | left].
      apply sublist_length in Hsub as Hlen'. simpl in Hlen'.
      destruct fs; [| simpl in Hlen'; lia].
      by rewrite (Hall f (list_elem_of_here _ _)).
    + unfold main. simpl.
      destruct (seed_watched env (initial_state ["all"])) as (seeding & Hs & Hws).
      destruct (check_loop_grows env slack_webhook slack_channel n
                  (initial_state ["all"])) as (later & Hl & Hwl).
      rewrite Hl, Hs. simpl. rewrite app_nil_r, fetch_log_app.
      intros u [Hu | Hu]%elem_of_app.
      * destruct (watched_fetch_log _ _ _ Hwl Hu) as (f & Hf & ->).
        by rewrite (Hall f Hf).
      * destruct (watched_fetch_log _ _ _ Hws Hu) as (f & Hf & ->).
        simpl in Hf. by apply list_elem_of_singleton in Hf as ->.
Qed.

Lemma main_always_asks_witness :
  feeds (seeded Samples.env_up (initial_state (parsed_feeds []))) = ["all"]
  ∨ feeds (seeded Samples.env_up (initial_state (parsed_feeds []))) = [].
Proof.
  exact (proj1 (proj2 (proj2 (main_always_asks Samples.env_up 2 "hook" "#aws" []))
                 eq_refl)).
Defined.

(** ** Requests *)

(** X11. A request tells which feed it is for.  Whether the parser
    returns or raises, [fetch] adds that one request to the history, for
    the URL made of the name of the feed, and touches neither the list of
    feeds nor the stored dates; it hands on what the parser returns and
    catches nothing of what it raises; and two feeds are asked for at the
    same URL only if they have the same name. *)
Theorem fetch_names_its_feed env feed other s :
  history (fetch env feed s).2 = EvFetch (AWS_RSS_URL feed) :: history s
  ∧ feeds (fetch env feed s).2 = feeds s
  ∧ last_saved_dates (fetch env feed s).2 = last_saved_dates s
  ∧ (fetch env feed s).1
    = match feed_server env (history s) (AWS_RSS_URL feed) with
      | Parsed data => Ret data
      | Refused => Raise InvalidURL
      end
  ∧ (fetch_log (history (fetch env feed s).2)
     = fetch_log (history (fetch env other s).2) ↔ feed = other).
Proof.
  assert (∀ f, history (fetch env f s).2 = EvFetch (AWS_RSS_URL f) :: history s)
    as Hh.
  { intros f. unfold fetch, feedparser_parse.
    by destruct (feed_server env (history s) (AWS_RSS_URL f)). }
  split; [done |]. rewrite !Hh.
  unfold fetch, feedparser_parse.
  destruct (feed_server env (history s) (AWS_RSS_URL feed)); simpl;
    (split_and!; [done.. |]; split;
       [intros H; apply AWS_RSS_URL_inj; congruence | by intros ->]).
Qed.

(** ** What a run can tell of its environment *)

Section SameView.

Variables e1 e2 : environment.
Hypothesis Hsame : same_view e1 e2.

Lemma same_view_refused s feed :
  snapshot e1 s feed = Refused → snapshot e2 s feed = Refused.
Proof.
  destruct Hsame as (_ & Hfeed & _). unfold snapshot. intros Ha.
  specialize (Hfeed (history s) (AWS_RSS_URL feed)). rewrite Ha in Hfeed.
  by destruct (feed_server e2 (history s) (AWS_RSS_URL feed)).
Qed.

Lemma same_view_parsed s feed data :
  snapshot e1 s feed = Parsed data →
  ∃ data',
    snapshot e2 s feed = Parsed data'
    ∧ status data = status data'
    ∧ entry_view <$> head (entries data) = entry_view <$> head (entries data').
Proof.
  destruct Hsame as (_ & Hfeed & _). unfold snapshot. intros Ha.
  specialize (Hfeed (history s) (AWS_RSS_URL feed)). rewrite Ha in Hfeed.
  destruct (feed_server e2 (history s) (AWS_RSS_URL feed)) as [data' |];
    [| done].
  exists data'. simpl in Hfeed. split; [done |]. split; congruence.
Qed.

Lemma same_view_empty s feed data :
  snapshot e1 s feed = Parsed data → entries data = [] →
  ∃ data', snapshot e2 s feed = Parsed data' ∧ entries data' = [].
Proof.
  intros Ha He. destruct (same_view_parsed s feed data Ha) as (data' & Ha' & _ & Hv).
  exists data'. split; [done |]. rewrite He in Hv.
  by destruct (entries data').
Qed.

Lemma same_view_head s feed data item rest :
  snapshot e1 s feed = Parsed data → entries data = item :: rest →
  ∃ data' item' rest',
    snapshot e2 s feed = Parsed data'
    ∧ entries data' = item' :: rest'
    ∧ entry_view item = entry_view item'.
Proof.
  intros Ha He. destruct (same_view_parsed s feed data Ha) as (data' & Ha' & _ & Hv).
  rewrite He in Hv.
  destruct (entries data') as [| item' rest'] eqn:He'; [done |].
  exists data', item', rest'. split; [done |]. split; [done |].
  simpl in Hv. congruence.
Qed.

Lemma entry_view_payload item item' slack_channel :
  entry_view item = entry_view item' →
  slack_payload item slack_channel = slack_payload item' slack_channel
  ∧ datetime_of_tuple6 (published_parsed item)
    = datetime_of_tuple6 (published_parsed item').
Proof.
  unfold entry_view. intros Hv.
  assert (title item = title item') as Ht by congruence.
  assert (link item = link item') as Hl by congruence.
  assert (summary item = summary item') as Hs by congruence.
  split; [| congruence].
  unfold slack_payload, message_color. by rewrite Ht, Hl, Hs.
Qed.

Lemma same_view_answer h url data code :
  slack_server e1 h url data = Response code →
  ∃ code', slack_server e2 h url data = Response code'.
Proof.
  destruct Hsame as (_ & _ & Hpost). intros H1.
  destruct (slack_server e2 h url data) as [code' |] eqn:H2; [by exists code' |].
  apply Hpost in H2. congruence.
Qed.

Lemma same_view_check_feed slack_webhook slack_channel feed s :
  check_feed e1 slack_webhook slack_channel feed s
  = check_feed e2 slack_webhook slack_channel feed s.
Proof.
  destruct (check_feed_visit e1 slack_webhook slack_channel s feed)
    as [Ha | data Ha He | data item rest Ha He Hk
        | data item rest saved Ha He Hk Hle
        | data item rest saved code Ha He Hk Hlt Hp
        | data item rest saved Ha He Hk Hlt Hp].
  - symmetry. by apply check_feed_refused, same_view_refused.
  - destruct (same_view_empty s feed data Ha He) as (data' & Ha' & He').
    symmetry. by eapply check_feed_empty.
  - destruct (same_view_head s feed data item rest Ha He)
      as (data' & item' & rest' & Ha' & He' & Hv).
    symmetry. by eapply check_feed_unregistered.
  - destruct (same_view_head s feed data item rest Ha He)
      as (data' & item' & rest' & Ha' & He' & Hv).
    destruct (entry_view_payload item item' slack_channel Hv) as [Hpay Hdate].
    symmetry. eapply check_feed_old; [done.. |].
    rewrite <- Hdate. by apply datetime_gt_false.
  - destruct (same_view_head s feed data item rest Ha He)
      as (data' & item' & rest' & Ha' & He' & Hv).
    destruct (entry_view_payload item item' slack_channel Hv) as [Hpay Hdate].
    destruct (same_view_answer _ _ _ _ Hp) as [code' Hp'].
    rewrite Hpay in Hp'. rewrite Hpay, Hdate.
    symmetry. eapply check_feed_new; [done.. | | done].
    rewrite <- Hdate. by apply datetime_gt_true.
  - destruct (same_view_head s feed data item rest Ha He)
      as (data' & item' & rest' & Ha' & He' & Hv).
    destruct (entry_view_payload item item' slack_channel Hv) as [Hpay Hdate].
    destruct Hsame as (_ & _ & Hpost). apply Hpost in Hp.
    rewrite Hpay in Hp. rewrite Hpay.
    symmetry. eapply check_feed_unreachable; [done.. | | done].
    rewrite <- Hdate. by apply datetime_gt_true.
Qed.

Lemma same_view_seed_date data data' :
  entry_view <$> head (entries data) = entry_view <$> head (entries data') →
  seed_date e1 data = seed_date e2 data'.
Proof.
  unfold seed_date. intros Hv.
  destruct (entries data) as [| item rest], (entries data') as [| item' rest'];
    try done.
  - apply Hsame.
  - simpl in Hv. assert (entry_view item = entry_view item') as Hv' by congruence.
    by destruct (entry_view_payload item item' "" Hv').
Qed.

Lemma same_view_seed_feed feed s : seed_feed e1 feed s = seed_feed e2 feed s.
Proof.
  destruct (seed_feed_visit e1 s feed)
    as [Ha | data Ha Hs | data Ha Hs | data code r Ha Hs Hc Hr | data code Ha Hs Hc Hr].
  - symmetry. by apply seed_feed_refused, same_view_refused.
  - destruct (same_view_parsed s feed data Ha) as (data' & Ha' & Hst & Hv).
    symmetry. eapply seed_feed_no_status; [done | congruence].
  - destruct (same_view_parsed s feed data Ha) as (data' & Ha' & Hst & Hv).
    rewrite (same_view_seed_date data data' Hv).
    symmetry. eapply seed_feed_kept; [done | congruence].
  - destruct (same_view_parsed s feed data Ha) as (data' & Ha' & Hst & Hv).
    symmetry. apply (seed_feed_dropped e2 s feed data' code r);
      [done | congruence | done | done].
  - destruct (same_view_parsed s feed data Ha) as (data' & Ha' & Hst & Hv).
    symmetry. apply (seed_feed_absent e2 s feed data' code);
      [done | congruence | done | done].
Qed.

End SameView.

Lemma bind_ext {A B} (m1 m2 : M A) (k1 k2 : A → M B) :
  (∀ s, m1 s = m2 s) → (∀ a s, k1 a s = k2 a s) →
  ∀ s, bind m1 k1 s = bind m2 k2 s.
Proof.
  intros Hm Hk s. unfold bind. rewrite Hm.
  by destruct (m2 s) as [[a | e] s1].
Qed.

Lemma for_each_ext {A} (body1 body2 : A → M unit) :
  (∀ x s, body1 x s = body2 x s) →
  ∀ l s, for_each l body1 s = for_each l body2 s.
Proof.
  intros Hb l. induction l as [| x l IH]; intros s; simpl; [done |].
  apply bind_ext; [apply Hb | intros _; apply IH].
Qed.

Lemma while_true_ext (body1 body2 : M unit) :
  (∀ s, body1 s = body2 s) →
  ∀ n s, while_true n body1 s = while_true n body2 s.
Proof.
  intros Hb n. induction n as [| n IH]; intros s; simpl; [done |].
  apply bind_ext; [apply Hb | intros _; apply IH].
Qed.

(** X12. A run sees of its environment only what it reads: the start
    time, whether a request returns, the status of each snapshot and the
    title, link, summary and date (the first six fields of the time) of
    its first entry, and whether a POST returns.  Two environments that
    agree on these give
    the same run: older entries of a snapshot, the remaining fields of a
    time and the status code that the webhook answers change nothing. *)
Theorem run_depends_on_view e1 e2 n slack_webhook slack_channel s0 :
  same_view e1 e2 →
  check_loop e1 n slack_webhook slack_channel s0
  = check_loop e2 n slack_webhook slack_channel s0.
Proof.
  intros Hsame. revert s0. unfold check_loop.
  apply bind_ext.
  { unfold seed. apply bind_ext; [done | intros _].
    apply bind_ext; [done | intros copy].
    apply for_each_ext, (same_view_seed_feed e1 e2 Hsame). }
  intros _. apply bind_ext; [done | intros _].
  apply bind_ext; [done | intros _].
  apply bind_ext; [done | intros fs].
  apply bind_ext; [done | intros _].
  unfold steady. apply while_true_ext. unfold check_pass.
  apply bind_ext; [done | intros _].
  apply bind_ext; [done | intros fs'].
  apply bind_ext; [| done].
  apply for_each_ext. intros x s. apply (same_view_check_feed e1 e2 Hsame).
Qed.

Lemma run_depends_on_view_witness :
  check_loop Samples.env_up 3 "hook" "#aws" (initial_state ["ec2"])
  = check_loop Samples.env_500 3 "hook" "#aws" (initial_state ["ec2"]).
Proof.
  apply run_depends_on_view. split; [reflexivity |]. split; [reflexivity |].
  intros h url data. split; discriminate.
Defined.

(** ** Where the stored dates come from *)

Section DatesFromFeeds.

Variable env : environment.

#[global] Instance keeps_preorder (I : state → Prop) : PreOrder (keeps I).
Proof. split; unfold keeps; [by intros s | by intros s1 s2 s3 H12 H23 H1; auto]. Qed.

Lemma keeps_dates {A} (m : M A) :
  (∀ s, last_saved_dates (m s).2 = last_saved_dates s) →
  preserves (keeps (dates_from_feeds env)) m.
Proof. intros Hd s Hs f d. rewrite Hd. apply Hs. Qed.

Lemma dates_from_feeds_insert s feed d h :
  dates_from_feeds env s → date_origin env d →
  dates_from_feeds env
    (mk_state (feeds s) (<[feed := d]> (last_saved_dates s)) h).
Proof.
  intros Hs Hd f d'. simpl. destruct (decide (feed = f)) as [-> | Hne].
  - rewrite lookup_insert_eq. by intros [= <-].
  - rewrite lookup_insert_ne by done. apply Hs.
Qed.

Lemma seed_feed_dates feed :
  preserves (keeps (dates_from_feeds env)) (seed_feed env feed).
Proof.
  intros s Hs.
  destruct (seed_feed_visit env s feed)
    as [Ha | data Ha Hst | data Ha Hst | data code r Ha Hst Hc Hr
        | data code Ha Hst Hc Hr];
    simpl; try done.
  apply dates_from_feeds_insert; [done |]. unfold seed_date.
  destruct (entries data) as [| item rest] eqn:He; [by left |].
  right. exists item. split; [| done]. by eexists _, _, _, _.
Qed.

Lemma check_feed_dates slack_webhook slack_channel feed :
  preserves (keeps (dates_from_feeds env))
            (check_feed env slack_webhook slack_channel feed).
Proof.
  intros s Hs.
  destruct (check_feed_visit env slack_webhook slack_channel s feed)
    as [Ha | data Ha He | data item rest Ha He Hk
        | data item rest saved Ha He Hk Hle
        | data item rest saved code Ha He Hk Hlt Hp
        | data item rest saved Ha He Hk Hlt Hp];
    simpl; try done.
  apply dates_from_feeds_insert; [done |].
  right. exists item. split; [| done]. by eexists _, _, _, _.
Qed.

Lemma logging_log_dates lvl fmt args :
  preserves (keeps (dates_from_feeds env)) (logging_log lvl fmt args).
Proof. apply keeps_dates. intros s. unfold logging_log. by case_decide. Qed.

Lemma steady_dates slack_webhook slack_channel n :
  preserves (keeps (dates_from_feeds env))
            (steady env n slack_webhook slack_channel).
Proof.
  apply preserves_while_true; [apply _ |]. unfold check_pass.
  apply preserves_bind; [apply _ | apply logging_log_dates | intros _].
  apply preserves_bind; [apply _ | by apply keeps_dates | intros fs].
  apply preserves_bind; [apply _ | | intros _; by apply keeps_dates].
  apply preserves_for_each; [apply _ |]. intros x. apply check_feed_dates.
Qed.

Lemma seed_dates s0 : dates_from_feeds env (seed env s0).2.
Proof.
  unfold seed, bind. simpl.
  apply (preserves_for_each (keeps (dates_from_feeds env)) (feeds s0)
           (seed_feed env) seed_feed_dates).
  intros f d. simpl. by rewrite lookup_empty.
Qed.

(** X13. The map holds no date of its own making: at every point of a
    run of [check_loop], whatever the map held before, a stored date is
    [START_TIME] or the date of an entry that came first in a snapshot
    served for some feed. *)
Theorem stored_dates_come_from_feeds slack_webhook slack_channel n s0 f d :
  last_saved_dates (check_loop env n slack_webhook slack_channel s0).2 !! f = Some d →
  d = START_TIME env
  ∨ ∃ item h feed data rest,
      feed_server env h (AWS_RSS_URL feed) = Parsed data
      ∧ entries data = item :: rest
      ∧ d = datetime_of_tuple6 (published_parsed item).
Proof.
  assert (dates_from_feeds env (check_loop env n slack_webhook slack_channel s0).2)
    as Hall.
  { unfold check_loop, bind at 1. pose proof (seed_dates s0) as Hseed.
    destruct (seed env s0) as [[[] | e] s1]; simpl in *; [| done].
    revert Hseed. apply (preserves_bind (keeps (dates_from_feeds env))).
    { apply keeps_dates. intros s. unfold abort_if_empty, bind, get_feeds.
      by destruct (feeds s). }
    intros _. apply preserves_bind; [apply _ | apply logging_log_dates | intros _].
    apply preserves_bind; [apply _ | by apply keeps_dates | intros fs].
    apply preserves_bind; [apply _ | | intros _; apply steady_dates].
    apply preserves_for_each; [apply _ |]. intros x.
    apply keeps_dates. intros s. unfold announce_feed, bind, dates_get.
    by destruct (last_saved_dates s !! x). }
  intros Hd.
  destruct (Hall f d Hd) as [-> | (item & (h & feed & data & rest & Ha & He) & ->)].
  - by left.
  - right. by exists item, h, feed, data, rest.
Qed.

End DatesFromFeeds.

Lemma stored_dates_come_from_feeds_witness :
  Samples.D1 = START_TIME Samples.env_up
  ∨ ∃ item h feed data rest,
      feed_server Samples.env_up h (AWS_RSS_URL feed) = Parsed data
      ∧ entries data = item :: rest
      ∧ Samples.D1 = datetime_of_tuple6 (published_parsed item).
Proof.
  exact (stored_dates_come_from_feeds Samples.env_up "hook" "#aws" 3
           (initial_state ["ec2"]) "ec2" Samples.D1 eq_refl).
Defined.
